(** * finance_rag_implementation: the retrieval pipeline of the notebook

    A shallow embedding of the code cells of
    [finance_rag_implementation.ipynb]: the company table and the subject
    lookup, the two fetch helpers, the chunker, the corpus builder and the
    full pipeline [run_rag_with_news].

    Python values are modelled as the code has them: a [str] is a list of
    Latin-1 code points, an [int] is a [Z], a [list] is a [list], the
    [company_ticker_map] dict is an association list in insertion order (the
    loop over it depends on the order), the [info] dict of yfinance is a
    [gmap].  Code that can raise returns in an error monad; the calls to the
    outside world (yfinance, feedparser, sentence-transformers, faiss,
    openai) are answered by a [World] of collaborators and recorded in a call
    log.  The search of the faiss index, which the notebook only calls, is
    modelled apart, from section 4.3 of the specification. *)

From Stdlib Require Import ZArith QArith Ascii String.
From stdpp Require Import base numbers list sorting strings gmap.

Local Open Scope Z_scope.

(** ** Python strings *)

Module Py.

(** A Python [str]: a sequence of code points.  The model covers the code
    points below 256 (Latin-1), one [ascii] each. *)
Definition str := list ascii.

(** A literal. *)
Definition lit (s : string) : str := list_ascii_of_string s.

(** The line feed character, ["\n"]. *)
Definition nl : str := [ascii_of_nat 10].

(** Exceptions carry their class name, as [type(e).__name__] does. *)
Record exn := Exn { exn_class : string }.

Definition ValueError : exn := Exn "ValueError".
Definition IndexError : exn := Exn "IndexError".
Definition KeyError : exn := Exn "KeyError".

(** The outcome of evaluating an expression: a value or a raised
    exception. *)
Inductive res (A : Type) : Type :=
| Ok (a : A)
| Raise (e : exn).
Arguments Ok {A} a.
Arguments Raise {A} e.

Definition res_bind {A B} (r : res A) (k : A -> res B) : res B :=
  match r with
  | Ok a => k a
  | Raise e => Raise e
  end.

(** [len(x)] as a Python int. *)
Definition len {A} (l : list A) : Z := Z.of_nat (length l).

(** [range(start, stop, step)], evaluated to the list of its items.  As in
    CPython the number of items is computed first and item [k] is
    [start + k * step]; a zero step raises [ValueError]. *)
Definition range_len (start stop step : Z) : Z :=
  if 0 <? step then
    (if start <? stop then (stop - start - 1) / step + 1 else 0)
  else
    (if stop <? start then (start - stop - 1) / (- step) + 1 else 0).

Definition range (start stop step : Z) : res (list Z) :=
  if step =? 0 then Raise ValueError
  else Ok (map (fun k => start + Z.of_nat k * step)
               (seq 0 (Z.to_nat (range_len start stop step)))).

(** The bounds of a slice [x[lo:hi]]: a negative bound counts from the end,
    and both are clamped to [0 .. len(x)]. *)
Definition clamp (n i : Z) : Z :=
  if i <? 0 then Z.max 0 (i + n) else Z.min i n.

(** [x[lo:hi]] (step 1). *)
Definition slice {A} (l : list A) (lo hi : Z) : list A :=
  let lo' := clamp (len l) lo in
  let hi' := clamp (len l) hi in
  take (Z.to_nat (hi' - lo')) (drop (Z.to_nat lo') l).

(** [x[i]] on a list: a negative index counts from the end, an index out of
    range raises [IndexError]. *)
Definition getitem {A} (l : list A) (i : Z) : res A :=
  let j := if i <? 0 then i + len l else i in
  if j <? 0 then Raise IndexError
  else match l !! Z.to_nat j with
       | Some a => Ok a
       | None => Raise IndexError
       end.

(** [sep.join(parts)]. *)
Fixpoint join (sep : str) (parts : list str) : str :=
  match parts with
  | [] => []
  | [p] => p
  | p :: ps => p ++ sep ++ join sep ps
  end.

(** [c.lower()] on one code point below 256: the letters A-Z and the
    Latin-1 capitals U+00C0-U+00DE (but not the multiplication sign U+00D7)
    move up by 32. *)
Definition lower_char (c : ascii) : ascii :=
  let n := nat_of_ascii c in
  if ((65 <=? n) && (n <=? 90))%nat
     || ((192 <=? n) && (n <=? 222) && negb (n =? 215))%nat
  then ascii_of_nat (n + 32) else c.

(** [s.lower()]. *)
Definition lower (s : str) : str := map lower_char s.

(** [s.startswith(p)]. *)
Fixpoint startswith (p s : str) : bool :=
  match p, s with
  | [], _ => true
  | _ :: _, [] => false
  | a :: p', b :: s' => if Ascii.eqb a b then startswith p' s' else false
  end.

(** [p in s]: [p] occurs in [s] as a contiguous substring.  The scan tries
    every start position from the left. *)
Fixpoint contains (p s : str) : bool :=
  startswith p s ||
  match s with
  | [] => false
  | _ :: s' => contains p s'
  end.

End Py.

Import Py.

(** ** The chunker *)

(** [[text[i:i+chunk_size] for i in range(0, len(text), chunk_size)]] *)
Definition chunk_text (text : str) (chunk_size : Z) : res (list str) :=
  res_bind (range 0 (len text) chunk_size) (fun r =>
  Ok (map (fun i => slice text i (i + chunk_size)) r)).

(** The default value of the [chunk_size] parameter. *)
Definition default_chunk_size : Z := 300.

(** ** The company table and the subject lookup *)

(** [re.search(pattern, s)] for a pattern made of letters only: such a
    pattern has no metacharacter and matches exactly where it occurs as a
    substring.  Every key of [company_ticker_map] is of this kind (see
    [company_names_plain]). *)
Definition re_search (pattern s : str) : bool := contains pattern s.

(** A dict with string keys, in insertion order. *)
Abbreviation dict := (list (str * str)).

Definition dict_keys (d : dict) : list str := map fst d.

(** [d[key]] for a key known to the dict; [None] otherwise. *)
Fixpoint dict_get (d : dict) (key : str) : option str :=
  match d with
  | [] => None
  | (k, v) :: d' => if bool_decide (k = key) then Some v else dict_get d' key
  end.

(** The table of the notebook.  A dict literal keeps its keys in the order
    they are written (the notebook runs on Python 3.10). *)
Definition company_ticker_map : dict :=
  [ (lit "microsoft", lit "MSFT");
    (lit "apple", lit "AAPL");
    (lit "google", lit "GOOGL");
    (lit "amazon", lit "AMZN");
    (lit "meta", lit "META");
    (lit "tesla", lit "TSLA");
    (lit "bny", lit "BK") ].

(** The loop [for name in d: if re.search(name, q): return d[name], name],
    falling through to [return None, None]. *)
Fixpoint first_match (d : dict) (names : list str) (question_lower : str)
  : option str * option str :=
  match names with
  | [] => (None, None)
  | name :: names' =>
      if re_search name question_lower
      then (dict_get d name, Some name)
      else first_match d names' question_lower
  end.

Definition get_ticker_from_question (question : str)
  : option str * option str :=
  let question_lower := lower question in
  first_match company_ticker_map (dict_keys company_ticker_map) question_lower.

(** ** Collaborators and the call log *)

(** A float32, kept as its bit pattern: the notebook never computes with
    one, it only hands them from the embedder to the index. *)
Definition float32 := Z.
Definition embedding := list float32.

(** A faiss flat L2 index as the notebook sees it: the dimension it was
    created with and the batches added to it. *)
Record index := Index { index_d : Z; index_added : list (list embedding) }.

(** The request of [openai.ChatCompletion.create]. *)
Record chat_request := ChatRequest {
  chat_model : str;
  chat_messages : list (str * str);   (* role, content *)
  chat_temperature : Q
}.

(** One call to the outside world. *)
Inductive call :=
| CallTickerInfo (ticker : str)
| CallFeedParse (url : str)
| CallLoadModel (name : str)
| CallEncode (texts : list str)
| CallIndexAdd (ix : index) (vectors : list embedding)
| CallIndexSearch (ix : index) (queries : list embedding) (k : Z)
| CallChat (request : chat_request).

(** What the outside world answers. *)
Record World := {
  (* yf.Ticker(ticker).info *)
  yf_info : str -> res (gmap string str);
  (* feedparser.parse(url)['entries'] *)
  feed_entries : str -> res (list (gmap string str));
  (* SentenceTransformer(name) *)
  load_model : str -> res unit;
  (* model.encode(texts) *)
  encode : list str -> res (list embedding);
  (* index.add(vectors) *)
  index_add : index -> list embedding -> res unit;
  (* index.search(queries, k), the pair D, I *)
  index_search : index -> list embedding -> Z
                 -> res (list (list float32) * list (list Z));
  (* the message contents of response['choices'] *)
  chat : chat_request -> res (list str)
}.

(** A computation: the calls it made, in order, and its outcome. *)
Definition M (A : Type) : Type := (list call * res A)%type.

Definition calls {A} (m : M A) : list call := fst m.
Definition outcome {A} (m : M A) : res A := snd m.

Definition M_ret {A} (a : A) : M A := ([], Ok a).

Definition M_bind {A B} (m : M A) (k : A -> M B) : M B :=
  match m with
  | (l, Ok a) => let '(l', r) := k a in (l ++ l', r)
  | (l, Raise e) => (l, Raise e)
  end.

(** A pure step that may raise. *)
Definition lift {A} (r : res A) : M A := ([], r).

(** A call to a collaborator. *)
Definition ask {A} (c : call) (answer : res A) : M A := ([c], answer).

#[global] Instance M_mret : MRet M := @M_ret.
#[global] Instance M_mbind : MBind M := fun A B k m => M_bind m k.

(** A list comprehension whose body may raise. *)
Fixpoint comprehension {A B} (f : A -> res B) (l : list A) : res (list B) :=
  match l with
  | [] => Ok []
  | a :: l' =>
      res_bind (f a) (fun b =>
      res_bind (comprehension f l') (fun bs => Ok (b :: bs)))
  end.

(** [d[key]] on a collaborator's dict: [KeyError] when absent. *)
Definition item (d : gmap string str) (key : string) : res str :=
  match d !! key with
  | Some v => Ok v
  | None => Raise KeyError
  end.

(** [f"https://finance.yahoo.com/rss/headline?s={ticker}"] *)
Definition news_url (ticker : str) : str :=
  lit "https://finance.yahoo.com/rss/headline?s=" ++ ticker.

Section Pipeline.

Variable w : World.

Definition get_company_summary (ticker : str) : M str :=
  info ← ask (CallTickerInfo ticker) (yf_info w ticker);
  mret (default (lit "No summary available.")
                 (info !! "longBusinessSummary"%string)).

Definition get_yahoo_finance_news (ticker : str) : M (list str) :=
  let url := news_url ticker in
  entries ← ask (CallFeedParse url) (feed_entries w url);
  lift (comprehension
          (fun entry =>
             res_bind (item entry "title") (fun title =>
             res_bind (item entry "summary") (fun summary =>
             Ok (title ++ lit ". " ++ summary))))
          entries).

Definition build_rag_corpus (ticker : str) (company_name : option str)
  : M (list str) :=
  summary ← get_company_summary ticker;
  summary_chunks ← lift (chunk_text summary default_chunk_size);
  news_articles ← get_yahoo_finance_news ticker;
  news_chunks ← lift (comprehension
                         (fun article => chunk_text article default_chunk_size)
                         news_articles);
  let news_chunks := concat news_chunks in
  mret (summary_chunks ++ news_chunks).

Definition sorry_message : str :=
  lit "Sorry, I couldn't identify a company in your question.".

Definition model_name : str := lit "all-MiniLM-L6-v2".

(** The nested [retrieve_context(q)]; [corpus] and [ix] are the variables it
    closes over. *)
Definition retrieve_context (corpus : list str) (ix : index) (q : str)
  : M str :=
  q_embed ← ask (CallEncode [q]) (encode w [q]);
  '(D, I_) ← ask (CallIndexSearch ix q_embed 3) (index_search w ix q_embed 3);
  I0 ← lift (getitem I_ 0);                                         (* I[0] *)
  texts ← lift (comprehension (fun i => getitem corpus i) I0);
  mret (join nl texts).

Definition make_prompt (context question : str) : str :=
  lit "Context:" ++ nl ++ context ++ nl ++ nl ++ lit "Question: " ++ question.

Definition make_request (prompt : str) : chat_request :=
  {| chat_model := lit "gpt-3.5-turbo";
     chat_messages := [(lit "user", prompt)];
     chat_temperature := (7 # 10)%Q |}.

Definition run_rag_with_news (question : str) : M str :=
  let '(ticker, company_name) := get_ticker_from_question question in
  match ticker with
  | None | Some [] =>                                  (* if not ticker *)
      mret sorry_message
  | Some ticker =>
      corpus ← build_rag_corpus ticker company_name;
      _ ← ask (CallLoadModel model_name) (load_model w model_name);
      embeddings ← ask (CallEncode corpus) (encode w corpus);
      e0 ← lift (getitem embeddings 0);
      let ix := Index (len e0) [] in
      _ ← ask (CallIndexAdd ix embeddings) (index_add w ix embeddings);
      let ix := Index (index_d ix) (index_added ix ++ [embeddings]) in
      context ← retrieve_context corpus ix question;
      let prompt := make_prompt context question in
      response ← ask (CallChat (make_request prompt))
                      (chat w (make_request prompt));
      answer ← lift (getitem response 0);
      mret answer
  end.

End Pipeline.

(** ** Reading the call log *)

(** The number of chunks [chunk_text] makes: the length of its [range]. *)
Definition chunk_count (text : str) (chunk_size : Z) : nat :=
  Z.to_nat (range_len 0 (len text) chunk_size).

(** The prompts handed to the chat model: the contents of the messages of
    every chat call, in order. *)
Definition chat_prompts (l : list call) : list str :=
  concat (map (fun c => match c with
                        | CallChat r => map snd (chat_messages r)
                        | _ => []
                        end) l).

(** ** The index search

    [faiss.IndexFlatL2] is a library class; the notebook holds no code for
    its [search].  The definitions of this part model it. *)

(** Modelled from the spec: the distance of [faiss.IndexFlatL2], missing
    from the notebook.  Section 4.3 fixes it as the squared Euclidean
    distance.  Components are taken as exact integers: every finite float32
    is a whole multiple of a power of two, so one common scaling makes the
    components of an index integers and keeps the order of the distances;
    the rounding of float32 arithmetic is not modelled. *)
Definition l2sqr (x y : embedding) : Z :=
  foldr Z.add 0 (zip_with (fun a b => (a - b) * (a - b)) x y).

(** Modelled from the spec: the scan of section 4.3 (compute the distance
    to every stored vector), missing from the notebook.  Each stored
    vector is listed with its insertion position, from position [i] on. *)
Fixpoint scan_from (i : nat) (stored : list embedding) (query : embedding)
  : list (nat * Z) :=
  match stored with
  | [] => []
  | x :: stored' => (i, l2sqr x query) :: scan_from (S i) stored' query
  end.

(** Modelled from the spec: the order of the results in section 4.3,
    ascending by distance, ties broken by ascending insertion position.
    An entry is put in front of the first entry that is not nearer; entries
    are inserted from the last position down to the first, so of two
    entries at the same distance the one inserted first in the index comes
    first. *)
Fixpoint insert_by_distance (e : nat * Z) (l : list (nat * Z))
  : list (nat * Z) :=
  match l with
  | [] => [e]
  | e' :: l' =>
      if e.2 <=? e'.2 then e :: l else e' :: insert_by_distance e l'
  end.

Definition sort_by_distance (l : list (nat * Z)) : list (nat * Z) :=
  foldr insert_by_distance [] l.

(** Modelled from the spec: the [k] nearest stored vectors of section 4.3
    (at most as many as are stored), with their distances. *)
Definition nearest (stored : list embedding) (query : embedding) (k : nat)
  : list (nat * Z) :=
  take k (sort_by_distance (scan_from 0 stored query)).

(** Modelled from the spec: the distance of a place without a neighbour,
    missing from the notebook.  The spec gives such a place no distance; the
    model stores the largest finite float32, [(2 - 2^-23) * 2^127], as faiss
    does. *)
Definition no_distance : Z := (2 ^ 24 - 1) * 2 ^ 104.

(** Modelled from the spec: [index.search(query, k)] for one query, missing
    from the notebook, as the pair of rows [D], [I] the notebook unpacks.
    The nearest vectors are those of section 4.3, and [k <= 0] is refused
    as section 4.3 says.  Where the spec lets the result be shorter than
    [k], the model follows the documentation of faiss, the library the
    notebook calls: [search] returns exactly [k] places for each query, and
    a place for which the index has no vector holds the position [-1]. *)
Definition faiss_search (stored : list embedding) (query : embedding) (k : Z)
  : res (list Z * list Z) :=
  if k <=? 0 then Raise (Exn "InvalidArgument")
  else
    let found := nearest stored query (Z.to_nat k) in
    let missing := (Z.to_nat k - length found)%nat in
    Ok (map snd found ++ replicate missing no_distance,
        map (fun e => Z.of_nat e.1) found ++ replicate missing (-1)).

(** Modelled from the spec: [index.search(queries, k)] on the index the
    notebook built, missing from the notebook: one row of [D] and one of
    [I] for each query, over all the vectors added to the index. *)
Definition faiss_index_search (ix : index) (queries : list embedding) (k : Z)
  : res (list (list float32) * list (list Z)) :=
  res_bind (comprehension (fun q => faiss_search (concat (index_added ix)) q k)
                          queries)
           (fun rows => Ok (map fst rows, map snd rows)).

(** Modelled from the spec: the order of two results in section 4.3,
    missing from the notebook: nearer first, and at the same distance the
    one inserted first. *)
Definition before (e e' : nat * Z) : Prop :=
  e.2 < e'.2 \/ (e.2 = e'.2 /\ (e.1 < e'.1)%nat).

(** ** Sample worlds *)

Definition TimeoutError : exn := Exn "TimeoutError".

Definition info_with_summary (summary : str) : gmap string str :=
  {[ "longBusinessSummary"%string := summary ]}.

Definition news_entry (title summary : str) : gmap string str :=
  {[ "title"%string := title; "summary"%string := summary ]}.

(** A world where everything answers: the summary is "AB", the feed has one
    entry, the embedder gives each text a vector of two numbers, the index
    answers a search with the positions 1, 0 and -1. *)
Definition world_demo : World := {|
  yf_info := fun _ => Ok (info_with_summary (lit "AB"));
  feed_entries := fun _ => Ok [news_entry (lit "C") (lit "D")];
  load_model := fun _ => Ok ();
  encode := fun texts => Ok (map (fun t => [len t; 1]) texts);
  index_add := fun _ _ => Ok ();
  index_search := fun _ _ _ => Ok ([[0; 1; 2]], [[1; 0; -1]]);
  chat := fun _ => Ok [lit "An answer."]
|}.

(** The same, with an empty summary and an empty feed. *)
Definition world_empty : World := {|
  yf_info := fun _ => Ok (info_with_summary []);
  feed_entries := fun _ => Ok [];
  load_model := load_model world_demo;
  encode := encode world_demo;
  index_add := index_add world_demo;
  index_search := index_search world_demo;
  chat := chat world_demo
|}.

(** The same as [world_demo], with yfinance timing out. *)
Definition world_summary_down : World := {|
  yf_info := fun _ => Raise TimeoutError;
  feed_entries := feed_entries world_demo;
  load_model := load_model world_demo;
  encode := encode world_demo;
  index_add := index_add world_demo;
  index_search := index_search world_demo;
  chat := chat world_demo
|}.

(** The same as [world_demo], with the chat model timing out. *)
Definition world_chat_down : World := {|
  yf_info := yf_info world_demo;
  feed_entries := feed_entries world_demo;
  load_model := load_model world_demo;
  encode := encode world_demo;
  index_add := index_add world_demo;
  index_search := index_search world_demo;
  chat := fun _ => Raise TimeoutError
|}.

(** A world whose yfinance record has no business summary. *)
Definition world_no_summary : World := {|
  yf_info := fun _ => Ok ∅;
  feed_entries := feed_entries world_demo;
  load_model := load_model world_demo;
  encode := encode world_demo;
  index_add := index_add world_demo;
  index_search := index_search world_demo;
  chat := chat world_demo
|}.

(** A world whose feed has a second entry without a summary. *)
Definition world_bad_entry : World := {|
  yf_info := yf_info world_demo;
  feed_entries := fun _ => Ok [news_entry (lit "C") (lit "D");
                               {[ "title"%string := lit "E" ]}];
  load_model := load_model world_demo;
  encode := encode world_demo;
  index_add := index_add world_demo;
  index_search := index_search world_demo;
  chat := chat world_demo
|}.

(** The same as [world_demo], with a search that returns position 7. *)
Definition world_far_position : World := {|
  yf_info := yf_info world_demo;
  feed_entries := feed_entries world_demo;
  load_model := load_model world_demo;
  encode := encode world_demo;
  index_add := index_add world_demo;
  index_search := fun _ _ _ => Ok ([[0; 1; 2]], [[0; 7; 1]]);
  chat := chat world_demo
|}.

(** A world with no business summary and one news entry, whose index
    answers as [faiss_index_search]. *)
Definition world_faiss_small : World := {|
  yf_info := fun _ => Ok ∅;
  feed_entries := fun _ => Ok [news_entry (lit "C") (lit "D")];
  load_model := load_model world_demo;
  encode := encode world_demo;
  index_add := index_add world_demo;
  index_search := faiss_index_search;
  chat := chat world_demo
|}.

(** A world with a summary and two news entries, three fragments in all,
    whose index answers as [faiss_index_search]. *)
Definition world_faiss_three : World := {|
  yf_info := yf_info world_demo;
  feed_entries := fun _ => Ok [news_entry (lit "C") (lit "D");
                               news_entry (lit "EF") (lit "G")];
  load_model := load_model world_demo;
  encode := encode world_demo;
  index_add := index_add world_demo;
  index_search := faiss_index_search;
  chat := chat world_demo
|}.

(** * Properties *)

(** ** The chunker *)

Section Chunker.

Context {A : Type}.
Implicit Types l : list A.

Lemma len_nonneg l : 0 <= len l.
Proof. unfold len. lia. Qed.

(** A slice that starts inside the list and runs forward is a [take] of a
    [drop]. *)
Lemma slice_forward l (i c : Z) :
  0 <= i < len l -> 0 < c ->
  slice l i (i + c) = take (Z.to_nat c) (drop (Z.to_nat i) l).
Proof.
  intros Hi Hc. unfold slice, clamp.
  destruct (Z.ltb_spec i 0) as [?|_]; [lia|].
  destruct (Z.ltb_spec (i + c) 0) as [?|_]; [lia|].
  rewrite (Z.min_l i) by lia.
  destruct (Z.le_gt_cases (i + c) (len l)) as [Hin|Hout].
  - rewrite Z.min_l by lia. f_equal. lia.
  - rewrite Z.min_r by lia.
    assert (Hd : length (drop (Z.to_nat i) l) = Z.to_nat (len l - i)).
    { rewrite length_drop. unfold len. lia. }
    rewrite !take_ge; [done| |]; rewrite Hd; unfold len in *; lia.
Qed.

(** Consecutive windows of width [c] glue back to a prefix. *)
Lemma concat_windows l (c n : nat) :
  concat (map (fun k => take c (drop (k * c) l)) (seq 0 n)) = take (n * c) l.
Proof.
  induction n as [|n IH].
  - by rewrite take_0.
  - rewrite seq_S, map_app, concat_app, IH. simpl.
    rewrite app_nil_r, take_take_drop. f_equal. lia.
Qed.

End Chunker.

Lemma chunk_count_cover (text : str) (c : Z) :
  0 < c -> len text <= Z.of_nat (chunk_count text c) * c.
Proof.
  intros Hc. unfold chunk_count, range_len.
  destruct (Z.ltb_spec 0 c) as [_|?]; [|lia].
  pose proof (len_nonneg text) as Hn.
  destruct (Z.ltb_spec 0 (len text)) as [Hpos|?]; [|lia].
  rewrite Z.sub_0_r.
  pose proof (Z.div_pos (len text - 1) c ltac:(lia) Hc).
  pose proof (Z.mod_pos_bound (len text - 1) c Hc).
  pose proof (Z.div_mod (len text - 1) c ltac:(lia)).
  rewrite Z2Nat.id by lia. nia.
Qed.

Lemma chunk_count_tight (text : str) (c : Z) (k : nat) :
  0 < c -> (k < chunk_count text c)%nat -> Z.of_nat k * c < len text.
Proof.
  intros Hc. unfold chunk_count, range_len.
  destruct (Z.ltb_spec 0 c) as [_|?]; [|lia].
  destruct (Z.ltb_spec 0 (len text)) as [Hpos|?]; [|simpl; lia].
  rewrite Z.sub_0_r. intros Hk.
  pose proof (Z.div_pos (len text - 1) c ltac:(lia) Hc).
  pose proof (Z.mod_pos_bound (len text - 1) c Hc).
  pose proof (Z.div_mod (len text - 1) c ltac:(lia)).
  assert (Z.of_nat k <= (len text - 1) / c) by lia. nia.
Qed.

(** For a positive size the comprehension is a list of windows. *)
Lemma chunk_text_windows (text : str) (c : Z) :
  0 < c ->
  chunk_text text c =
  Ok (map (fun k => take (Z.to_nat c) (drop (k * Z.to_nat c) text))
          (seq 0 (chunk_count text c))).
Proof.
  intros Hc. unfold chunk_text, range.
  destruct (Z.eqb_spec c 0) as [?|_]; [lia|]. simpl.
  fold (chunk_count text c). f_equal. rewrite map_map.
  apply map_ext_in. intros k Hk. apply in_seq in Hk.
  pose proof (chunk_count_tight text c k Hc ltac:(lia)).
  rewrite Z.add_0_l, slice_forward by lia. do 2 f_equal. lia.
Qed.

(** C1.  For a positive chunk size [chunk_text] returns normally; its
    fragments concatenated in order give back the text exactly; fragment
    number [k] is the contiguous slice that starts at offset
    [k * chunk_size] (so fragments neither overlap nor leave a gap); every
    fragment but the last has exactly [chunk_size] characters and the last
    has between 1 and [chunk_size]; the empty text gives no fragment. *)
Theorem chunk_text_partition (text : str) (chunk_size : Z) :
  0 < chunk_size ->
  exists chunks : list str,
    chunk_text text chunk_size = Ok chunks
    /\ concat chunks = text
    /\ (forall (k : nat) (chunk : str), chunks !! k = Some chunk ->
          chunk = take (Z.to_nat chunk_size)
                       (drop (k * Z.to_nat chunk_size) text))
    /\ (forall (k : nat) (chunk : str), chunks !! k = Some chunk ->
          (S k < length chunks)%nat -> len chunk = chunk_size)
    /\ (forall chunk : str, last chunks = Some chunk ->
          0 < len chunk <= chunk_size)
    /\ chunk_text [] chunk_size = Ok [].
Proof.
  intros Hc. set (c := Z.to_nat chunk_size).
  set (n := chunk_count text chunk_size).
  exists (map (fun k => take c (drop (k * c) text)) (seq 0 n)).
  assert (Hlook : forall (k : nat) (chunk : str),
    map (fun k => take c (drop (k * c) text)) (seq 0 n) !! k = Some chunk ->
    (k < n)%nat /\ chunk = take c (drop (k * c) text)).
  { intros k chunk Hk. change (map ?f ?l) with (f <$> l) in Hk.
    rewrite list_lookup_fmap in Hk.
    destruct (seq 0 n !! k) as [j|] eqn:Hj; [|done].
    apply lookup_seq in Hj as [-> ?]. simpl in Hk. split; [done|congruence]. }
  assert (Hwidth : forall k : nat, (k < n)%nat ->
    length (take c (drop (k * c) text)) =
    Nat.min c (length text - k * c)).
  { intros k _. by rewrite length_take, length_drop. }
  split; [by apply chunk_text_windows|].
  split.
  { rewrite concat_windows. apply take_ge.
    pose proof (chunk_count_cover text chunk_size Hc). unfold len in *.
    subst c n. nia. }
  split; [intros k chunk Hk; by apply Hlook in Hk as [_ ->]|].
  split.
  { intros k chunk Hk Hnext. apply Hlook in Hk as [Hkn ->].
    rewrite length_map, length_seq in Hnext.
    pose proof (chunk_count_tight text chunk_size (S k) Hc Hnext).
    unfold len in *. rewrite Hwidth by done. subst c. nia. }
  split.
  { intros chunk Hlast. rewrite last_lookup in Hlast.
    apply Hlook in Hlast as [Hkn ->]. rewrite length_map, length_seq in *.
    pose proof (chunk_count_tight text chunk_size _ Hc Hkn).
    unfold len in *. rewrite Hwidth by done. subst c. nia. }
  rewrite chunk_text_windows by done. unfold chunk_count, range_len.
  change (len (@nil ascii)) with 0. by destruct (0 <? chunk_size).
Qed.

Lemma chunk_text_partition_witness :
  exists chunks : list str,
    chunk_text (lit "abcdefg") 3 = Ok chunks
    /\ concat chunks = lit "abcdefg"
    /\ (forall (k : nat) (chunk : str), chunks !! k = Some chunk ->
          chunk = take (Z.to_nat 3) (drop (k * Z.to_nat 3) (lit "abcdefg")))
    /\ (forall (k : nat) (chunk : str), chunks !! k = Some chunk ->
          (S k < length chunks)%nat -> len chunk = 3)
    /\ (forall chunk : str, last chunks = Some chunk -> 0 < len chunk <= 3)
    /\ chunk_text [] 3 = Ok [].
Proof. apply (chunk_text_partition (lit "abcdefg") 3). lia. Defined.

(** A negative step from 0 towards a length never starts. *)
Lemma range_negative_step (n step : Z) :
  0 <= n -> step < 0 -> range 0 n step = Ok [].
Proof.
  intros Hn Hs. unfold range, range_len.
  destruct (Z.eqb_spec step 0) as [?|_]; [lia|].
  destruct (Z.ltb_spec 0 step) as [?|_]; [lia|].
  destruct (Z.ltb_spec n 0) as [?|_]; [lia|]. reflexivity.
Qed.

(** C10.  A strictly negative chunk size is not rejected: [chunk_text]
    returns the empty list, whatever the text, and raises nothing. *)
Theorem chunk_text_negative_size (text : str) (chunk_size : Z) :
  chunk_size < 0 -> chunk_text text chunk_size = Ok [].
Proof.
  intros Hc. unfold chunk_text.
  by rewrite range_negative_step by (auto using len_nonneg).
Qed.

Lemma chunk_text_negative_size_witness :
  chunk_text (lit "quarterly report") (-5) = Ok [].
Proof. apply (chunk_text_negative_size (lit "quarterly report") (-5)). lia. Defined.

(** C7, as stated, fails: with chunk size -1 the chunker raises nothing. *)
Lemma chunk_text_rejects_nonpositive_counterexample :
  ~ (forall (text : str) (chunk_size : Z),
       chunk_size <= 0 -> exists e, chunk_text text chunk_size = Raise e).
Proof.
  intros H. destruct (H (lit "abc") (-1) ltac:(lia)) as [e He].
  vm_compute in He. discriminate He.
Qed.

(** C7, amended.  Of the sizes [chunk_size <= 0] only zero is rejected: it
    raises [ValueError] (the zero step of [range]), for every text; a
    negative size returns the empty list. *)
Theorem chunk_text_nonpositive_size (text : str) (chunk_size : Z) :
  chunk_size <= 0 ->
  chunk_text text chunk_size =
  if chunk_size =? 0 then Raise ValueError else Ok [].
Proof.
  intros Hc. destruct (Z.eqb_spec chunk_size 0) as [->|Hne].
  - reflexivity.
  - unfold chunk_text.
    by rewrite range_negative_step by (auto using len_nonneg || lia).
Qed.

Lemma chunk_text_nonpositive_size_witness :
  chunk_text (lit "abc") 0 = Raise ValueError.
Proof. apply (chunk_text_nonpositive_size (lit "abc") 0). lia. Defined.

(** ** Subject lookup *)

(** Every company name is made of the letters a-z: as a regular expression
    it is a literal. *)
Lemma company_names_plain :
  forallb (forallb (fun c => (97 <=? nat_of_ascii c)%nat
                             && (nat_of_ascii c <=? 122)%nat))
          (dict_keys company_ticker_map) = true.
Proof. reflexivity. Qed.

Section FirstMatch.

Variable question_lower : str.

Lemma first_match_none (d : dict) (names : list str) :
  (forall name, name ∈ names -> re_search name question_lower = false) ->
  first_match d names question_lower = (None, None).
Proof.
  induction names as [|name names IH]; intros Hno; [done|]. simpl.
  rewrite Hno by left. apply IH. intros n Hn. apply Hno. by right.
Qed.

Lemma first_match_at (d : dict) (names : list str) (i : nat) (name : str) :
  names !! i = Some name ->
  re_search name question_lower = true ->
  (forall (j : nat) (earlier : str), (j < i)%nat -> names !! j = Some earlier ->
     re_search earlier question_lower = false) ->
  first_match d names question_lower = (dict_get d name, Some name).
Proof.
  revert i. induction names as [|n names IH]; intros i Hi Hhit Hmiss; [done|].
  destruct i as [|i]; simpl in *.
  - injection Hi as ->. by rewrite Hhit.
  - rewrite (Hmiss 0%nat n) by (done || lia).
    apply (IH i); [done..|]. intros j e Hj He. apply (Hmiss (S j) e); [lia|done].
Qed.

End FirstMatch.

(** The value stored under the key at position [i], provided no earlier
    entry has the same key. *)
Lemma dict_get_at (d : dict) (i : nat) (name ticker : str) :
  d !! i = Some (name, ticker) ->
  (forall (j : nat) (earlier t : str), (j < i)%nat ->
     d !! j = Some (earlier, t) -> earlier <> name) ->
  dict_get d name = Some ticker.
Proof.
  revert i. induction d as [|[k v] d IH]; intros i Hi Hfresh; [done|].
  destruct i as [|i]; simpl in *.
  - injection Hi as -> ->. by rewrite bool_decide_eq_true_2.
  - rewrite bool_decide_eq_false_2 by (apply (Hfresh 0%nat k v); [lia|done]).
    apply (IH i); [done|]. intros j e t Hj He. apply (Hfresh (S j) e t); [lia|done].
Qed.

(** C9.  The lookup sees the question only through its lower-cased form (so
    it ignores case), tests each name for occurrence as a substring, and
    among the names that occur returns the ticker of the one that comes
    first in the insertion order of [company_ticker_map], wherever the names
    stand in the question. *)
Theorem get_ticker_first_in_map_order
    (question question' : str) (i : nat) (name ticker : str) :
  company_ticker_map !! i = Some (name, ticker) ->
  contains name (lower question) = true ->
  (forall (j : nat) (earlier t : str), (j < i)%nat ->
     company_ticker_map !! j = Some (earlier, t) ->
     contains earlier (lower question) = false) ->
  lower question' = lower question ->
  get_ticker_from_question question = (Some ticker, Some name)
  /\ get_ticker_from_question question' = get_ticker_from_question question.
Proof.
  intros Hi Hhit Hmiss Hcase. split.
  - unfold get_ticker_from_question.
    rewrite (first_match_at _ _ _ i name); [| |done|].
    + f_equal. apply (dict_get_at _ i); [done|].
      intros j e t Hj He ->. specialize (Hmiss j name t Hj He). congruence.
    + unfold dict_keys. change (map ?f ?l) with (f <$> l).
      by rewrite list_lookup_fmap, Hi.
    + intros j e Hj He. unfold dict_keys in He.
      change (map ?f ?l) with (f <$> l) in He. rewrite list_lookup_fmap in He.
      destruct (company_ticker_map !! j) as [[e' t]|] eqn:Hd; [|done].
      injection He as <-. by apply (Hmiss j e' t).
  - unfold get_ticker_from_question. by rewrite Hcase.
Qed.

Lemma get_ticker_first_in_map_order_witness :
  get_ticker_from_question (lit "Is Tesla ahead of APPLE?")
    = (Some (lit "AAPL"), Some (lit "apple"))
  /\ get_ticker_from_question (lit "is tesla ahead of apple?")
     = get_ticker_from_question (lit "Is Tesla ahead of APPLE?").
Proof.
  apply (get_ticker_first_in_map_order
           (lit "Is Tesla ahead of APPLE?") (lit "is tesla ahead of apple?")
           1%nat (lit "apple") (lit "AAPL")).
  - reflexivity.
  - reflexivity.
  - intros j earlier t Hj Hl. destruct j as [|j]; [|lia].
    injection Hl as <- <-. reflexivity.
  - reflexivity.
Defined.

(** ** The pipeline *)

Section Binds.

Context {A B : Type}.
Implicit Types (m : M A) (k : A -> M B).

Lemma calls_bind_Ok m k (a : A) :
  outcome m = Ok a -> calls (m ≫= k) = calls m ++ calls (k a).
Proof.
  destruct m as [l r]. simpl. intros ->.
  unfold mbind, M_mbind, M_bind. by destruct (k a).
Qed.

Lemma outcome_bind_Ok m k (a : A) :
  outcome m = Ok a -> outcome (m ≫= k) = outcome (k a).
Proof.
  destruct m as [l r]. simpl. intros ->.
  unfold mbind, M_mbind, M_bind. by destruct (k a).
Qed.

Lemma calls_bind_Raise m k (e : exn) :
  outcome m = Raise e -> calls (m ≫= k) = calls m.
Proof. destruct m as [l r]. simpl. by intros ->. Qed.

Lemma outcome_bind_Raise m k (e : exn) :
  outcome m = Raise e -> outcome (m ≫= k) = Raise e.
Proof. destruct m as [l r]. simpl. by intros ->. Qed.

Lemma calls_ask_Ok (c : call) (a : A) k :
  calls (ask c (Ok a) ≫= k) = c :: calls (k a).
Proof. by rewrite (calls_bind_Ok _ _ a). Qed.

Lemma outcome_ask_Ok (c : call) (a : A) k :
  outcome (ask c (Ok a) ≫= k) = outcome (k a).
Proof. by rewrite (outcome_bind_Ok _ _ a). Qed.

Lemma calls_lift_Ok (a : A) k : calls (lift (Ok a) ≫= k) = calls (k a).
Proof. by rewrite (calls_bind_Ok _ _ a). Qed.

Lemma outcome_lift_Ok (a : A) k : outcome (lift (Ok a) ≫= k) = outcome (k a).
Proof. by rewrite (outcome_bind_Ok _ _ a). Qed.

Lemma calls_ask_Raise (c : call) (e : exn) k :
  calls (ask c (Raise e) ≫= k) = [c].
Proof. reflexivity. Qed.

Lemma outcome_ask_Raise (c : call) (e : exn) k :
  outcome (ask c (Raise e) ≫= k) = Raise e.
Proof. reflexivity. Qed.

Lemma calls_lift_Raise (e : exn) k : calls (lift (Raise e) ≫= k) = [].
Proof. reflexivity. Qed.

Lemma outcome_lift_Raise (e : exn) k :
  outcome (lift (Raise e) ≫= k) = Raise e.
Proof. reflexivity. Qed.

End Binds.

Lemma M_eq {A} (m : M A) (l : list call) (r : res A) :
  calls m = l -> outcome m = r -> m = (l, r).
Proof. destruct m. simpl. by intros -> ->. Qed.

Create Rewrite HintDb pipeline.
#[global] Hint Rewrite
  @calls_ask_Ok @outcome_ask_Ok @calls_lift_Ok @outcome_lift_Ok
  @calls_ask_Raise @outcome_ask_Raise @calls_lift_Raise @outcome_lift_Raise
  : pipeline.

(** Run the steps whose answers are known. *)
Ltac run_steps := repeat (progress (autorewrite with pipeline; cbv beta iota zeta)).

(** C5.  When no company name occurs in the lower-cased question, the
    pipeline returns its apology as an ordinary value and the call log is
    empty: no fetcher, no embedder, no index and no chat call was made. *)
Theorem run_rag_no_subject (w : World) (question : str) :
  (forall name, name ∈ dict_keys company_ticker_map ->
     contains name (lower question) = false) ->
  get_ticker_from_question question = (None, None)
  /\ outcome (run_rag_with_news w question) = Ok sorry_message
  /\ calls (run_rag_with_news w question) = [].
Proof.
  intros Hno.
  assert (Hnone : get_ticker_from_question question = (None, None)).
  { unfold get_ticker_from_question. by apply first_match_none. }
  unfold run_rag_with_news. by rewrite Hnone.
Qed.

Lemma run_rag_no_subject_witness :
  get_ticker_from_question (lit "Will it rain in Paris?") = (None, None)
  /\ outcome (run_rag_with_news world_demo (lit "Will it rain in Paris?"))
     = Ok sorry_message
  /\ calls (run_rag_with_news world_demo (lit "Will it rain in Paris?")) = [].
Proof.
  apply (run_rag_no_subject world_demo (lit "Will it rain in Paris?")).
  intros name Hin.
  repeat (apply elem_of_cons in Hin as [->|Hin]; [reflexivity|]).
  by apply elem_of_nil in Hin.
Defined.

(** *** The corpus builder *)

Lemma calls_get_company_summary (w : World) (ticker : str) :
  calls (get_company_summary w ticker) = [CallTickerInfo ticker].
Proof.
  unfold get_company_summary. by destruct (yf_info w ticker); run_steps.
Qed.

Lemma calls_get_yahoo_finance_news (w : World) (ticker : str) :
  calls (get_yahoo_finance_news w ticker) = [CallFeedParse (news_url ticker)].
Proof.
  unfold get_yahoo_finance_news.
  by destruct (feed_entries w (news_url ticker)); run_steps.
Qed.

(** Chunking every article with a positive size cannot fail. *)
Lemma comprehension_chunk_text (c : Z) (articles : list str) :
  0 < c ->
  exists news_chunks : list (list str),
    comprehension (fun article => chunk_text article c) articles = Ok news_chunks
    /\ Forall2 (fun article cs => chunk_text article c = Ok cs)
               articles news_chunks.
Proof.
  intros Hc. induction articles as [|a articles (nc & Hnc & Hall)].
  - exists []. by split.
  - eexists (_ :: nc). simpl. rewrite Hnc, (chunk_text_windows a c Hc). simpl.
    split; [done|]. constructor; [|done]. by apply chunk_text_windows.
Qed.

(** What [build_rag_corpus] does once both fetches have answered. *)
Lemma build_rag_corpus_fetched (w : World) (ticker : str)
    (company_name : option str) (summary : str) (news_articles : list str)
    (summary_chunks : list str) (news_chunks : list (list str)) :
  outcome (get_company_summary w ticker) = Ok summary ->
  outcome (get_yahoo_finance_news w ticker) = Ok news_articles ->
  chunk_text summary default_chunk_size = Ok summary_chunks ->
  comprehension (fun article => chunk_text article default_chunk_size)
                news_articles = Ok news_chunks ->
  build_rag_corpus w ticker company_name =
  ([CallTickerInfo ticker; CallFeedParse (news_url ticker)],
   Ok (summary_chunks ++ concat news_chunks)).
Proof.
  intros Hs Hn Hsc Hnc. unfold build_rag_corpus. apply M_eq.
  - rewrite (calls_bind_Ok _ _ summary Hs), calls_get_company_summary, Hsc.
    run_steps.
    rewrite (calls_bind_Ok _ _ news_articles Hn), calls_get_yahoo_finance_news.
    rewrite Hnc. by run_steps.
  - rewrite (outcome_bind_Ok _ _ summary Hs), Hsc. run_steps.
    rewrite (outcome_bind_Ok _ _ news_articles Hn), Hnc. by run_steps.
Qed.

(** C2, as stated, fails: the builder has no chunk size of its own, and with
    the summary "AB" and one news item "C. D" it does not return the
    fragments of size 1. *)
Lemma build_rag_corpus_any_size_counterexample :
  ~ (forall (w : World) (ticker : str) (company_name : option str)
            (summary : str) (news_articles : list str) (chunk_size : Z),
       0 < chunk_size ->
       outcome (get_company_summary w ticker) = Ok summary ->
       outcome (get_yahoo_finance_news w ticker) = Ok news_articles ->
       exists (summary_chunks : list str) (news_chunks : list (list str)),
         chunk_text summary chunk_size = Ok summary_chunks
         /\ Forall2 (fun article cs => chunk_text article chunk_size = Ok cs)
                    news_articles news_chunks
         /\ outcome (build_rag_corpus w ticker company_name)
            = Ok (summary_chunks ++ concat news_chunks)).
Proof.
  intros H.
  destruct (H world_demo (lit "TSLA") (Some (lit "tesla"))
              (lit "AB") [lit "C. D"] 1 ltac:(lia) eq_refl eq_refl)
    as (sc & nc & Hsc & _ & Hout).
  vm_compute in Hsc. injection Hsc as <-.
  vm_compute in Hout. discriminate Hout.
Qed.

(** C2, amended.  The chunk size is always the default, 300.  Once the
    summary and the news items are fetched (one call each, summary first),
    the corpus is the chunks of the summary followed by the chunks of each
    news item, item after item in the order of the feed, each item's chunks
    in their order; an empty item adds nothing. *)
Theorem build_rag_corpus_order (w : World) (ticker : str)
    (company_name : option str) (summary : str) (news_articles : list str) :
  outcome (get_company_summary w ticker) = Ok summary ->
  outcome (get_yahoo_finance_news w ticker) = Ok news_articles ->
  exists (summary_chunks : list str) (news_chunks : list (list str)),
    chunk_text summary default_chunk_size = Ok summary_chunks
    /\ Forall2 (fun article cs => chunk_text article default_chunk_size = Ok cs)
               news_articles news_chunks
    /\ outcome (build_rag_corpus w ticker company_name)
       = Ok (summary_chunks ++ concat news_chunks)
    /\ (forall i : nat, news_articles !! i = Some [] -> news_chunks !! i = Some [])
    /\ calls (build_rag_corpus w ticker company_name)
       = [CallTickerInfo ticker; CallFeedParse (news_url ticker)].
Proof.
  intros Hs Hn.
  assert (Hpos : 0 < default_chunk_size) by done.
  destruct (comprehension_chunk_text default_chunk_size news_articles Hpos)
    as (nc & Hnc & Hall).
  eexists _, nc. split; [by apply chunk_text_windows|]. split; [done|].
  rewrite (build_rag_corpus_fetched w ticker company_name summary news_articles
             _ nc Hs Hn (chunk_text_windows _ _ Hpos) Hnc).
  split; [done|]. split; [|done].
  intros i Hi. destruct (Forall2_lookup_l _ _ _ _ _ Hall Hi) as (cs & Hcs & Hchunk).
  rewrite Hcs. vm_compute in Hchunk. by injection Hchunk as <-.
Qed.

Lemma build_rag_corpus_order_witness :
  exists (summary_chunks : list str) (news_chunks : list (list str)),
    chunk_text (lit "AB") default_chunk_size = Ok summary_chunks
    /\ Forall2 (fun article cs => chunk_text article default_chunk_size = Ok cs)
               [lit "C. D"] news_chunks
    /\ outcome (build_rag_corpus world_demo (lit "TSLA") (Some (lit "tesla")))
       = Ok (summary_chunks ++ concat news_chunks)
    /\ (forall i : nat, [lit "C. D"] !! i = Some [] -> news_chunks !! i = Some [])
    /\ calls (build_rag_corpus world_demo (lit "TSLA") (Some (lit "tesla")))
       = [CallTickerInfo (lit "TSLA"); CallFeedParse (news_url (lit "TSLA"))].
Proof.
  apply (build_rag_corpus_order world_demo (lit "TSLA") (Some (lit "tesla"))
           (lit "AB") [lit "C. D"]); reflexivity.
Defined.

(** *** Retrieval and the prompt *)

(** The builder calls the two fetchers and nothing else. *)
Lemma calls_build_rag_corpus (w : World) (ticker : str)
    (company_name : option str) :
  calls (build_rag_corpus w ticker company_name) = [CallTickerInfo ticker]
  \/ calls (build_rag_corpus w ticker company_name)
     = [CallTickerInfo ticker; CallFeedParse (news_url ticker)].
Proof.
  unfold build_rag_corpus.
  destruct (outcome (get_company_summary w ticker)) as [s|e] eqn:Hsum.
  - rewrite (calls_bind_Ok _ _ s Hsum), calls_get_company_summary.
    destruct (chunk_text s default_chunk_size) as [sc|e]; run_steps; [|by left].
    right. destruct (outcome (get_yahoo_finance_news w ticker)) as [n|e] eqn:Hn.
    + rewrite (calls_bind_Ok _ _ n Hn), calls_get_yahoo_finance_news.
      by destruct (comprehension _ n); run_steps.
    + by rewrite (calls_bind_Raise _ _ e Hn), calls_get_yahoo_finance_news.
  - rewrite (calls_bind_Raise _ _ e Hsum), calls_get_company_summary. by left.
Qed.

(** The pipeline from the model load on, once the subject is known. *)
Lemma run_rag_with_subject (w : World) (question ticker : str)
    (company_name : option str) :
  get_ticker_from_question question = (Some ticker, company_name) ->
  ticker <> [] ->
  run_rag_with_news w question =
  (corpus ← build_rag_corpus w ticker company_name;
   _ ← ask (CallLoadModel model_name) (load_model w model_name);
   embeddings ← ask (CallEncode corpus) (encode w corpus);
   e0 ← lift (getitem embeddings 0);
   let ix := Index (len e0) [] in
   _ ← ask (CallIndexAdd ix embeddings) (index_add w ix embeddings);
   let ix := Index (index_d ix) (index_added ix ++ [embeddings]) in
   context ← retrieve_context w corpus ix question;
   let prompt := make_prompt context question in
   response ← ask (CallChat (make_request prompt))
                  (chat w (make_request prompt));
   answer ← lift (getitem response 0);
   mret answer).
Proof.
  intros Ht Hne. unfold run_rag_with_news. rewrite Ht.
  by destruct ticker.
Qed.

(** The last two steps make one call. *)
Lemma calls_generation (w : World) (prompt : str) :
  calls (response ← ask (CallChat (make_request prompt))
                        (chat w (make_request prompt));
         answer ← lift (getitem response 0);
         mret answer)
  = [CallChat (make_request prompt)].
Proof.
  destruct (chat w (make_request prompt)) as [r|e]; run_steps; [|done].
  by destruct (getitem r 0); run_steps.
Qed.

(** C4.  The notebook at a corpus of two fragments, with an index that
    answers as faiss does: the corpus is the placeholder summary and one
    news item, the search for 3 neighbours returns the positions 0, 1 and
    the filler -1, and the prompt sent to the chat model has three context
    lines, the news item twice: the filler is read as [corpus[-1]], the
    last fragment, although only two fragments were retrieved. *)
Theorem run_rag_prompt_small_corpus :
  outcome (build_rag_corpus world_faiss_small (lit "TSLA") (Some (lit "tesla")))
    = Ok [lit "No summary available."; lit "C. D"]
  /\ index_search world_faiss_small (Index 2 [[[21; 1]; [4; 1]]]) [[19; 1]] 3
     = Ok ([[4; 225; no_distance]], [[0; 1; -1]])
  /\ chat_prompts
       (calls (run_rag_with_news world_faiss_small (lit "How is Tesla doing?")))
     = [lit "Context:" ++ nl
        ++ lit "No summary available." ++ nl
        ++ lit "C. D" ++ nl
        ++ lit "C. D" ++ nl ++ nl
        ++ lit "Question: How is Tesla doing?"].
Proof. split; [reflexivity|]. split; [reflexivity|]. vm_compute. reflexivity. Qed.

(** *** Failures *)

(** C6, as stated, fails: with an empty summary and an empty feed the corpus
    has no fragment, and the run ends in an [IndexError], not in an error of
    class EmptyCorpus. *)
Lemma run_rag_empty_corpus_counterexample :
  outcome (build_rag_corpus world_empty (lit "TSLA") (Some (lit "tesla"))) = Ok []
  /\ outcome (run_rag_with_news world_empty (lit "How is Tesla doing?"))
     = Raise IndexError
  /\ ~ (exists e : exn,
          outcome (run_rag_with_news world_empty (lit "How is Tesla doing?"))
          = Raise e
          /\ exn_class e = "EmptyCorpus"%string).
Proof.
  split; [reflexivity|]. split; [reflexivity|].
  intros (e & He & Hclass).
  change (@Raise str IndexError = Raise e) in He. injection He as <-.
  discriminate Hclass.
Qed.

(** C6, amended.  For a corpus with no fragment, for which the embedder
    returns no embedding, the run fails with [IndexError]: reading
    [embeddings[0]] raises it after the model is loaded and the corpus
    encoded, before anything is added to an index, searched or sent to the
    chat model. *)
Theorem run_rag_empty_corpus (w : World) (question ticker : str)
    (company_name : option str) :
  get_ticker_from_question question = (Some ticker, company_name) ->
  ticker <> [] ->
  outcome (build_rag_corpus w ticker company_name) = Ok [] ->
  load_model w model_name = Ok () ->
  encode w [] = Ok [] ->
  outcome (run_rag_with_news w question) = Raise IndexError
  /\ calls (run_rag_with_news w question)
     = calls (build_rag_corpus w ticker company_name)
       ++ [CallLoadModel model_name; CallEncode []].
Proof.
  intros Ht Hne Hc Hm He.
  rewrite (run_rag_with_subject w question ticker company_name Ht Hne).
  split.
  - rewrite (outcome_bind_Ok _ _ [] Hc), Hm. run_steps. rewrite He. by run_steps.
  - rewrite (calls_bind_Ok _ _ [] Hc), Hm. run_steps. rewrite He. by run_steps.
Qed.

Lemma run_rag_empty_corpus_witness :
  outcome (run_rag_with_news world_empty (lit "How is Tesla doing?"))
    = Raise IndexError
  /\ calls (run_rag_with_news world_empty (lit "How is Tesla doing?"))
     = calls (build_rag_corpus world_empty (lit "TSLA") (Some (lit "tesla")))
       ++ [CallLoadModel model_name; CallEncode []].
Proof.
  apply (run_rag_empty_corpus world_empty (lit "How is Tesla doing?")
           (lit "TSLA") (Some (lit "tesla")));
    solve [reflexivity | discriminate].
Defined.

(** C8, as stated, fails: when yfinance times out the run ends in that very
    [TimeoutError], whose class is not SourceUnavailable, and a run in which
    the chat model times out instead ends in the same way. *)
Lemma run_rag_fetch_failure_counterexample :
  outcome (get_company_summary world_summary_down (lit "TSLA"))
    = Raise TimeoutError
  /\ outcome (run_rag_with_news world_summary_down (lit "How is Tesla doing?"))
     = Raise TimeoutError
  /\ exn_class TimeoutError <> "SourceUnavailable"%string
  /\ outcome (run_rag_with_news world_chat_down (lit "How is Tesla doing?"))
     = outcome (run_rag_with_news world_summary_down (lit "How is Tesla doing?")).
Proof. repeat split; (reflexivity || discriminate). Qed.

(** C8, amended.  A failure of the summary fetcher, or of the news fetcher
    after the summary was fetched, leaves [build_rag_corpus] unchanged: the
    builder raises the same exception and returns no corpus.  The pipeline
    does not rename it either: it raises that exception to its caller and
    makes no call after the failed fetch. *)
Theorem run_rag_fetch_failure (w : World) (question ticker : str)
    (company_name : option str) (e : exn) :
  get_ticker_from_question question = (Some ticker, company_name) ->
  ticker <> [] ->
  outcome (get_company_summary w ticker) = Raise e
  \/ ((exists summary, outcome (get_company_summary w ticker) = Ok summary)
      /\ outcome (get_yahoo_finance_news w ticker) = Raise e) ->
  outcome (build_rag_corpus w ticker company_name) = Raise e
  /\ outcome (run_rag_with_news w question) = Raise e
  /\ calls (run_rag_with_news w question)
     = calls (build_rag_corpus w ticker company_name).
Proof.
  intros Ht Hne Hfail.
  assert (Hb : outcome (build_rag_corpus w ticker company_name) = Raise e).
  { unfold build_rag_corpus. destruct Hfail as [Hs | [[summary Hs] Hn]].
    - by rewrite (outcome_bind_Raise _ _ e Hs).
    - rewrite (outcome_bind_Ok _ _ summary Hs).
      rewrite (chunk_text_windows summary default_chunk_size) by done.
      run_steps. by rewrite (outcome_bind_Raise _ _ e Hn). }
  split; [done|].
  rewrite (run_rag_with_subject w question ticker company_name Ht Hne).
  by rewrite (outcome_bind_Raise _ _ e Hb), (calls_bind_Raise _ _ e Hb).
Qed.

Lemma run_rag_fetch_failure_witness :
  outcome (build_rag_corpus world_summary_down (lit "TSLA") (Some (lit "tesla")))
    = Raise TimeoutError
  /\ outcome (run_rag_with_news world_summary_down (lit "How is Tesla doing?"))
     = Raise TimeoutError
  /\ calls (run_rag_with_news world_summary_down (lit "How is Tesla doing?"))
     = calls (build_rag_corpus world_summary_down (lit "TSLA")
                (Some (lit "tesla"))).
Proof.
  apply (run_rag_fetch_failure world_summary_down (lit "How is Tesla doing?")
           (lit "TSLA") (Some (lit "tesla")) TimeoutError).
  - reflexivity.
  - discriminate.
  - left. reflexivity.
Defined.

(** ** The index search *)

Section Search.

Implicit Types (e : nat * Z) (l : list (nat * Z)).
Implicit Types (stored : list embedding) (query : embedding).

Lemma insert_by_distance_perm e l : insert_by_distance e l ≡ₚ e :: l.
Proof.
  induction l as [|e' l IH]; simpl; [done|].
  destruct (e.2 <=? e'.2); [done|]. by rewrite IH, Permutation_swap.
Qed.

Lemma sort_by_distance_perm l : sort_by_distance l ≡ₚ l.
Proof.
  induction l as [|e l IH]; simpl; [done|].
  by rewrite insert_by_distance_perm, IH.
Qed.

Lemma insert_by_distance_sorted e l :
  StronglySorted before l ->
  Forall (fun x => (e.1 < x.1)%nat) l ->
  StronglySorted before (insert_by_distance e l).
Proof.
  induction 1 as [|e' l Hsorted IH Hall]; intros Hpos; simpl.
  - repeat constructor.
  - apply Forall_cons in Hpos as [Hpos' Hpos].
    destruct (Z.leb_spec e.2 e'.2) as [Hle|Hgt].
    + constructor; [by constructor|]. constructor.
      * unfold before. lia.
      * apply Forall_forall. intros x Hx.
        pose proof (proj1 (Forall_forall _ _) Hall x Hx) as Hb.
        pose proof (proj1 (Forall_forall _ _) Hpos x Hx) as Hp.
        unfold before in *. lia.
    + constructor; [by apply IH|].
      rewrite insert_by_distance_perm. constructor; [|done].
      unfold before. lia.
Qed.

Lemma scan_from_positions (i : nat) stored query :
  Forall (fun x => (i <= x.1)%nat) (scan_from i stored query).
Proof.
  revert i. induction stored as [|v stored IH]; intros i; simpl; constructor.
  - simpl. lia.
  - eapply Forall_impl; [apply (IH (S i))|]. simpl. lia.
Qed.

Lemma elem_of_scan_from (i p : nat) (d : Z) stored query :
  (p, d) ∈ scan_from i stored query
  <-> (i <= p)%nat
      /\ exists v, stored !! (p - i)%nat = Some v /\ d = l2sqr v query.
Proof.
  revert i. induction stored as [|v stored IH]; intros i; simpl.
  - split; [by intros ?%elem_of_nil|]. by intros (_ & v & ? & _).
  - rewrite elem_of_cons, IH. split.
    + intros [[= -> ->] | (Hle & v' & Hv' & ->)].
      * split; [lia|]. exists v. by rewrite Nat.sub_diag.
      * split; [lia|]. exists v'. split; [|done].
        by replace (p - i)%nat with (S (p - S i)) by lia.
    + intros (Hle & v' & Hv' & ->).
      destruct (decide (p = i)) as [->|Hne].
      * left. rewrite Nat.sub_diag in Hv'. simpl in Hv'. congruence.
      * right. split; [lia|]. exists v'. split; [|done].
        by replace (p - i)%nat with (S (p - S i)) in Hv' by lia.
Qed.

Lemma length_scan_from (i : nat) stored query :
  length (scan_from i stored query) = length stored.
Proof. revert i. induction stored; intros i; simpl; [done|]. by f_equal. Qed.

Lemma sort_scan_sorted (i : nat) stored query :
  StronglySorted before (sort_by_distance (scan_from i stored query)).
Proof.
  revert i. induction stored as [|v stored IH]; intros i; simpl; [constructor|].
  apply insert_by_distance_sorted; [apply IH|].
  rewrite sort_by_distance_perm.
  eapply Forall_impl; [apply (scan_from_positions (S i))|]. simpl. lia.
Qed.

Lemma StronglySorted_lookup {A} (R : A -> A -> Prop) (l : list A)
    (j j' : nat) (x y : A) :
  StronglySorted R l -> (j < j')%nat ->
  l !! j = Some x -> l !! j' = Some y -> R x y.
Proof.
  intros Hs. revert j j'. induction Hs as [|a l Hs IH Hall]; intros j j' Hlt Hx Hy.
  - done.
  - destruct j' as [|j']; [lia|]. destruct j as [|j]; simpl in *.
    + injection Hx as <-. apply (proj1 (Forall_forall _ _) Hall).
      by apply list_elem_of_lookup_2 in Hy.
    + apply (IH j j'); [lia|done..].
Qed.

(** The results of the scan in the order of section 4.3: how many there
    are, what each is, how two of them stand, and what is left out. *)
Lemma length_nearest stored query (k : nat) :
  length (nearest stored query k) = (k `min` length stored)%nat.
Proof.
  unfold nearest.
  by rewrite length_take, sort_by_distance_perm, length_scan_from.
Qed.

Lemma nearest_stored stored query (k j p : nat) (d : Z) :
  nearest stored query k !! j = Some (p, d) ->
  exists v, stored !! p = Some v /\ d = l2sqr v query.
Proof.
  unfold nearest. intros Hj. apply lookup_take_Some in Hj as [Hj _].
  apply list_elem_of_lookup_2 in Hj. rewrite sort_by_distance_perm in Hj.
  apply elem_of_scan_from in Hj as (_ & v & Hv & ->).
  exists v. by rewrite Nat.sub_0_r in Hv.
Qed.

Lemma nearest_ordered stored query (k j j' : nat) e e' :
  (j < j')%nat ->
  nearest stored query k !! j = Some e ->
  nearest stored query k !! j' = Some e' ->
  before e e'.
Proof.
  unfold nearest. intros Hlt Hj Hj'.
  apply lookup_take_Some in Hj as [Hj _].
  apply lookup_take_Some in Hj' as [Hj' _].
  by apply (StronglySorted_lookup before _ j j' e e'
              (sort_scan_sorted 0 stored query)).
Qed.

Lemma nearest_complete stored query (k p : nat) (v : embedding) :
  stored !! p = Some v ->
  (exists j, nearest stored query k !! j = Some (p, l2sqr v query))
  \/ forall j e, nearest stored query k !! j = Some e -> e.2 <= l2sqr v query.
Proof.
  intros Hv.
  assert (Hin : (p, l2sqr v query)
                ∈ sort_by_distance (scan_from 0 stored query)).
  { rewrite sort_by_distance_perm. apply elem_of_scan_from.
    split; [lia|]. exists v. by rewrite Nat.sub_0_r. }
  apply list_elem_of_lookup_1 in Hin as [i Hi].
  destruct (decide (i < k)%nat) as [Hlt|Hge].
  - left. exists i. unfold nearest. by apply lookup_take_Some.
  - right. intros j e Hj. unfold nearest in Hj.
    apply lookup_take_Some in Hj as [Hj Hjk].
    pose proof (StronglySorted_lookup before _ j i e _
                  (sort_scan_sorted 0 stored query) ltac:(lia) Hj Hi) as Hb.
    unfold before in Hb. simpl in Hb. lia.
Qed.

End Search.




(** * Further properties *)

(** ** More on the chunker *)

Lemma chunk_count_ceil (text : str) (c : Z) :
  0 < c -> Z.of_nat (chunk_count text c) = (len text + c - 1) / c.
Proof.
  intros Hc. unfold chunk_count, range_len.
  destruct (Z.ltb_spec 0 c) as [_|?]; [|lia].
  pose proof (len_nonneg text) as Hn.
  destruct (Z.ltb_spec 0 (len text)) as [Hpos|Hz].
  - rewrite Z.sub_0_r.
    replace (len text + c - 1) with (len text - 1 + 1 * c) by lia.
    rewrite Z.div_add by lia.
    pose proof (Z.div_pos (len text - 1) c ltac:(lia) Hc). lia.
  - replace (len text) with 0 by lia. simpl.
    rewrite Z.div_small by lia. reflexivity.
Qed.

(** X1.  The number of fragments is [ceil(len(text) / chunk_size)], and no
    fragment is empty. *)
Theorem chunk_text_count (text : str) (chunk_size : Z) :
  0 < chunk_size ->
  exists chunks : list str,
    chunk_text text chunk_size = Ok chunks
    /\ len chunks = (len text + chunk_size - 1) / chunk_size
    /\ Forall (fun chunk => chunk <> []) chunks.
Proof.
  intros Hc. eexists. split; [by apply chunk_text_windows|]. split.
  - unfold len at 1. rewrite length_map, length_seq.
    by apply chunk_count_ceil.
  - apply Forall_forall. intros chunk Hin.
    apply list_elem_of_fmap in Hin as (k & -> & Hk). apply elem_of_seq in Hk.
    pose proof (chunk_count_tight text chunk_size k Hc ltac:(lia)) as Hlt.
    intros Hnil. apply (f_equal length) in Hnil.
    rewrite length_take, length_drop in Hnil. simpl in Hnil.
    unfold len in Hlt. nia.
Qed.

Lemma chunk_text_count_witness :
  exists chunks : list str,
    chunk_text (lit "abcdefg") 3 = Ok chunks
    /\ len chunks = (len (lit "abcdefg") + 3 - 1) / 3
    /\ Forall (fun chunk => chunk <> []) chunks.
Proof. apply (chunk_text_count (lit "abcdefg") 3). lia. Defined.

(** X2.  A text that is not empty and no longer than the chunk size is its own
    single fragment. *)
Theorem chunk_text_short (text : str) (chunk_size : Z) :
  0 < len text <= chunk_size ->
  chunk_text text chunk_size = Ok [text].
Proof.
  intros [Hpos Hle]. rewrite chunk_text_windows by lia.
  assert (Hcount : chunk_count text chunk_size = 1%nat).
  { pose proof (chunk_count_ceil text chunk_size ltac:(lia)) as Hceil.
    replace (len text + chunk_size - 1) with (len text - 1 + 1 * chunk_size)
      in Hceil by lia.
    rewrite Z.div_add, Z.div_small in Hceil by lia. lia. }
  rewrite Hcount. cbn [seq map]. rewrite Nat.mul_0_l, drop_0, take_ge; [done|].
  unfold len in Hle. lia.
Qed.

Lemma chunk_text_short_witness :
  chunk_text (lit "No summary available.") 300
  = Ok [lit "No summary available."].
Proof.
  apply (chunk_text_short (lit "No summary available.") 300).
  vm_compute. split; [reflexivity | discriminate].
Defined.

(** X3.  Chunking distributes over [++] when the left text is a whole number of
    chunks long. *)
Theorem chunk_text_app (a b : str) (chunk_size : Z) (n : nat) :
  0 < chunk_size ->
  len a = Z.of_nat n * chunk_size ->
  exists chunks_a chunks_b : list str,
    chunk_text a chunk_size = Ok chunks_a
    /\ chunk_text b chunk_size = Ok chunks_b
    /\ chunk_text (a ++ b) chunk_size = Ok (chunks_a ++ chunks_b).
Proof.
  intros Hc Ha. set (c := Z.to_nat chunk_size).
  assert (Hla : length a = (n * c)%nat) by (unfold len in Ha; subst c; nia).
  assert (Hna : chunk_count a chunk_size = n).
  { pose proof (chunk_count_ceil a chunk_size Hc) as Hceil. rewrite Ha in Hceil.
    replace (Z.of_nat n * chunk_size + chunk_size - 1)
      with (chunk_size - 1 + Z.of_nat n * chunk_size) in Hceil by lia.
    rewrite Z.div_add, Z.div_small in Hceil by lia. lia. }
  assert (Hnab : chunk_count (a ++ b) chunk_size
                 = (n + chunk_count b chunk_size)%nat).
  { pose proof (chunk_count_ceil (a ++ b) chunk_size Hc) as Hab.
    pose proof (chunk_count_ceil b chunk_size Hc) as Hb.
    unfold len in Hab. rewrite length_app in Hab.
    replace (Z.of_nat (length a + length b) + chunk_size - 1)
      with (len b + chunk_size - 1 + Z.of_nat n * chunk_size) in Hab
      by (unfold len in *; lia).
    rewrite Z.div_add in Hab by lia. lia. }
  eexists _, _. split; [by apply chunk_text_windows|].
  split; [by apply chunk_text_windows|].
  rewrite chunk_text_windows by done. f_equal. fold c.
  rewrite Hnab, Hna, seq_app, map_app. f_equal.
  - apply map_ext_in. intros k Hk. apply in_seq in Hk.
    rewrite drop_app_le by nia.
    rewrite take_app_le; [done|]. rewrite length_drop. nia.
  - replace (0 + n)%nat with (n + 0)%nat by lia.
    rewrite <- (fmap_add_seq n 0). change (map ?f ?l) with (f <$> l).
    rewrite <- list_fmap_compose. apply list_fmap_ext. intros _ k _. simpl.
    replace ((n + k) * c)%nat with (length a + k * c)%nat by lia.
    by rewrite drop_app_add.
Qed.

Lemma chunk_text_app_witness :
  exists chunks_a chunks_b : list str,
    chunk_text (lit "abcdef") 3 = Ok chunks_a
    /\ chunk_text (lit "gh") 3 = Ok chunks_b
    /\ chunk_text (lit "abcdef" ++ lit "gh") 3 = Ok (chunks_a ++ chunks_b).
Proof. apply (chunk_text_app (lit "abcdef") (lit "gh") 3 2); [lia | reflexivity]. Defined.

(** ** More on the subject lookup *)

Lemma startswith_prefix (p s : str) :
  startswith p s = true <-> exists post, s = p ++ post.
Proof.
  revert s. induction p as [|a p IH]; intros s; simpl.
  - split; [intros _; by exists s|done].
  - destruct s as [|b s].
    + split; [done|]. by intros [post Hpost].
    + destruct (Ascii.eqb_spec a b) as [->|Hne].
      * rewrite IH. split; intros [post Hpost]; exists post; congruence.
      * split; [done|]. intros [post Hpost]. congruence.
Qed.

(** [contains] decides occurrence as a contiguous substring. *)
Lemma contains_substring (p s : str) :
  contains p s = true <-> exists pre post, s = pre ++ p ++ post.
Proof.
  induction s as [|b s IH].
  - simpl. rewrite orb_false_r, startswith_prefix. split.
    + intros [post Hpost]. by exists [], post.
    + intros (pre & post & Hs). destruct pre; [by exists post|done].
  - cbn [contains]. rewrite orb_true_iff, startswith_prefix, IH. split.
    + intros [[post Hpost] | (pre & post & Hs)].
      * by exists [], post.
      * exists (b :: pre), post. by rewrite Hs.
    + intros (pre & post & Hs). destruct pre as [|b' pre].
      * left. by exists post.
      * right. exists pre, post. simpl in Hs. congruence.
Qed.

(** How the loop over the names ends: either no name matches and the result
    is the pair of [None]s, or it stops at the first name that matches. *)
Lemma first_match_cases (d : dict) (names : list str) (question_lower : str) :
  ((forall name, name ∈ names -> re_search name question_lower = false)
   /\ first_match d names question_lower = (None, None))
  \/ (exists (i : nat) (name : str),
        names !! i = Some name
        /\ re_search name question_lower = true
        /\ (forall (j : nat) (earlier : str), (j < i)%nat ->
              names !! j = Some earlier ->
              re_search earlier question_lower = false)
        /\ first_match d names question_lower = (dict_get d name, Some name)).
Proof.
  induction names as [|n names IH].
  - left. split; [|done]. intros name Hin. by apply elem_of_nil in Hin.
  - simpl. destruct (re_search n question_lower) eqn:Hn.
    + right. exists 0%nat, n. repeat split; [done|]. intros j e Hj. lia.
    + destruct IH as [[Hno Hnone] | (i & name & Hi & Hhit & Hmiss & Hres)].
      * left. split; [|done]. intros name Hin.
        apply elem_of_cons in Hin as [->|Hin]; [done|by apply Hno].
      * right. exists (S i), name. repeat split; [done..| |done].
        intros j e Hj He. destruct j as [|j]; simpl in He.
        -- by injection He as <-.
        -- apply (Hmiss j e); [lia|done].
Qed.

(** The table has no repeated key, every key is in lower case and every
    ticker is non-empty. *)
Lemma company_ticker_map_entry (i : nat) (name ticker : str) :
  company_ticker_map !! i = Some (name, ticker) ->
  dict_get company_ticker_map name = Some ticker
  /\ lower name = name
  /\ ticker <> [].
Proof.
  intros Hi.
  do 7 (destruct i as [|i];
        [injection Hi as <- <-; repeat split; (reflexivity || discriminate)|]).
  done.
Qed.

Lemma dict_keys_lookup (d : dict) (i : nat) (name : str) :
  dict_keys d !! i = Some name <-> exists ticker, d !! i = Some (name, ticker).
Proof.
  unfold dict_keys. change (map ?f ?l) with (f <$> l).
  rewrite list_lookup_fmap. destruct (d !! i) as [[n t]|]; simpl.
  - split; [intros [= <-]; by exists t|intros [t' [= <- <-]]; done].
  - split; [done|]. by intros [t' ?].
Qed.

(** X4.  The lookup answers in one of two ways: both components are [None], or
    they are a ticker and its name from the table, the name occurs in the
    lower-cased question and the ticker is not empty. *)
Theorem get_ticker_sound (question : str) :
  get_ticker_from_question question = (None, None)
  \/ exists (i : nat) (name ticker : str),
       company_ticker_map !! i = Some (name, ticker)
       /\ get_ticker_from_question question = (Some ticker, Some name)
       /\ ticker <> []
       /\ exists pre post, lower question = pre ++ name ++ post.
Proof.
  unfold get_ticker_from_question.
  destruct (first_match_cases company_ticker_map
              (dict_keys company_ticker_map) (lower question))
    as [[_ Hnone] | (i & name & Hi & Hhit & _ & Hres)]; [by left|right].
  apply dict_keys_lookup in Hi as [ticker Hi].
  destruct (company_ticker_map_entry i name ticker Hi) as (Hget & _ & Hne).
  exists i, name, ticker. rewrite Hres, Hget.
  repeat split; [done..|]. by apply contains_substring.
Qed.

(** X5.  The lookup finds nothing exactly when no name of the table occurs in the
    lower-cased question. *)
Theorem get_ticker_none_iff (question : str) :
  get_ticker_from_question question = (None, None)
  <-> forall name, name ∈ dict_keys company_ticker_map ->
        ~ exists pre post, lower question = pre ++ name ++ post.
Proof.
  unfold get_ticker_from_question. split.
  - intros Hnone name Hin Hocc. apply contains_substring in Hocc.
    destruct (first_match_cases company_ticker_map
                (dict_keys company_ticker_map) (lower question))
      as [[Hno _] | (i & n & _ & _ & _ & Hres)].
    + specialize (Hno name Hin). unfold re_search in Hno. congruence.
    + congruence.
  - intros Hno. apply first_match_none. intros name Hin.
    unfold re_search. destruct (contains name (lower question)) eqn:Hc; [|done].
    destruct (Hno name Hin). by apply contains_substring.
Qed.

(** X6.  Matching is by substring and blind to case: a question that contains a
    company name anywhere, in any mix of cases, even inside a longer word,
    resolves to a company, namely to that one or to one earlier in the
    table. *)
Theorem get_ticker_substring (pre mid post : str) (i : nat) (name ticker : str) :
  company_ticker_map !! i = Some (name, ticker) ->
  lower mid = name ->
  exists (j : nat) (name' ticker' : str),
    (j <= i)%nat
    /\ company_ticker_map !! j = Some (name', ticker')
    /\ get_ticker_from_question (pre ++ mid ++ post) = (Some ticker', Some name').
Proof.
  intros Hi Hmid. unfold get_ticker_from_question.
  assert (Hhit : re_search name (lower (pre ++ mid ++ post)) = true).
  { apply contains_substring. exists (lower pre), (lower post).
    unfold lower in *. by rewrite !map_app, Hmid. }
  destruct (first_match_cases company_ticker_map
              (dict_keys company_ticker_map) (lower (pre ++ mid ++ post)))
    as [[Hno _] | (j & n & Hj & _ & Hmiss & Hres)].
  - rewrite Hno in Hhit; [done|]. apply list_elem_of_lookup. exists i.
    apply dict_keys_lookup. by exists ticker.
  - apply dict_keys_lookup in Hj as Hj'. destruct Hj' as [t Hjt].
    destruct (company_ticker_map_entry j n t Hjt) as (Hget & _ & _).
    exists j, n, t. rewrite Hres, Hget. split; [|done].
    destruct (Nat.le_gt_cases j i) as [|Hlt]; [done|exfalso].
    rewrite (Hmiss i name Hlt) in Hhit; [done|].
    apply dict_keys_lookup. by exists ticker.
Qed.

Lemma get_ticker_substring_witness :
  exists (j : nat) (name' ticker' : str),
    (j <= 4)%nat
    /\ company_ticker_map !! j = Some (name', ticker')
    /\ get_ticker_from_question
         (lit "Where is the " ++ lit "Meta" ++ lit "data stored?")
       = (Some ticker', Some name').
Proof.
  apply (get_ticker_substring (lit "Where is the ") (lit "Meta")
           (lit "data stored?") 4 (lit "meta") (lit "META")); reflexivity.
Defined.

(** ** The fetch helpers and the corpus *)

Section Comprehension.

Context {A B : Type} (f : A -> res B).

Lemma comprehension_Ok (l : list A) (bs : list B) :
  comprehension f l = Ok bs <-> Forall2 (fun a b => f a = Ok b) l bs.
Proof.
  revert bs. induction l as [|a l IH]; intros bs; simpl.
  - split; [intros [= <-]; constructor|by inversion 1].
  - destruct (f a) as [b|e] eqn:Hfa; simpl.
    + destruct (comprehension f l) as [bs'|e] eqn:Hl; simpl.
      * split.
        -- intros [= <-]. constructor; [done|by apply IH].
        -- inversion 1 as [|? b' ? bs'' Hb Hrest]; subst.
           apply IH in Hrest. congruence.
      * split; [done|]. inversion 1 as [|? b' ? bs'' Hb Hrest]; subst.
        by apply IH in Hrest.
    + split; [done|]. inversion 1; congruence.
Qed.

(** When the body can only raise [e0] and raises on some element, the
    comprehension raises [e0]. *)
Lemma comprehension_Raise (l : list A) (a : A) (e e0 : exn) :
  (forall a' e', f a' = Raise e' -> e' = e0) ->
  a ∈ l -> f a = Raise e ->
  comprehension f l = Raise e0.
Proof.
  intros Honly Hin Hfa. induction l as [|a' l IH]; [by apply elem_of_nil in Hin|].
  simpl. destruct (f a') as [b|e'] eqn:Hfa'; simpl.
  - apply elem_of_cons in Hin as [->|Hin]; [congruence|].
    by rewrite (IH Hin).
  - f_equal. by apply Honly in Hfa'.
Qed.

End Comprehension.

Lemma outcome_get_company_summary (w : World) (ticker : str) :
  outcome (get_company_summary w ticker)
  = res_bind (yf_info w ticker) (fun info =>
      Ok (default (lit "No summary available.")
                  (info !! "longBusinessSummary"%string))).
Proof.
  unfold get_company_summary. by destruct (yf_info w ticker); run_steps.
Qed.

Lemma outcome_get_yahoo_finance_news (w : World) (ticker : str) :
  outcome (get_yahoo_finance_news w ticker)
  = res_bind (feed_entries w (news_url ticker))
      (comprehension (fun entry =>
         res_bind (item entry "title") (fun title =>
         res_bind (item entry "summary") (fun summary =>
         Ok (title ++ lit ". " ++ summary))))).
Proof.
  unfold get_yahoo_finance_news.
  by destruct (feed_entries w (news_url ticker)).
Qed.

Lemma news_text_Ok (entry : gmap string str) (text : str) :
  res_bind (item entry "title") (fun title =>
  res_bind (item entry "summary") (fun summary =>
  Ok (title ++ lit ". " ++ summary))) = Ok text
  <-> exists title summary,
        entry !! "title"%string = Some title
        /\ entry !! "summary"%string = Some summary
        /\ text = title ++ lit ". " ++ summary.
Proof.
  unfold item.
  destruct (entry !! "title"%string) as [t|], (entry !! "summary"%string) as [s|];
    simpl; split; try done.
  - intros [= <-]. by exists t, s.
  - intros (t' & s' & [= <-] & [= <-] & ->). done.
  - by intros (t' & s' & _ & ? & _).
  - by intros (t' & s' & ? & _).
  - by intros (t' & s' & ? & _).
Qed.

Lemma news_text_Raise (entry : gmap string str) (e : exn) :
  res_bind (item entry "title") (fun title =>
  res_bind (item entry "summary") (fun summary =>
  Ok (title ++ lit ". " ++ summary))) = Raise e -> e = KeyError.
Proof.
  unfold item.
  destruct (entry !! "title"%string), (entry !! "summary"%string);
    simpl; congruence.
Qed.

(** The news items are never empty: each holds at least the separator. *)
Lemma news_items_nonempty (w : World) (ticker : str) (items : list str) :
  outcome (get_yahoo_finance_news w ticker) = Ok items ->
  Forall (fun item => item <> []) items.
Proof.
  rewrite outcome_get_yahoo_finance_news.
  destruct (feed_entries w (news_url ticker)) as [entries|]; [simpl|done].
  intros Hall. apply comprehension_Ok in Hall.
  induction Hall as [|entry text entries items Htext _ IH]; constructor; [|done].
  apply news_text_Ok in Htext as (t & s & _ & _ & ->).
  by destruct t.
Qed.

(** X7.  When yfinance knows the ticker but has no business summary for it, the
    summary is the placeholder sentence, and the placeholder becomes the
    first fragment of the corpus. *)
Theorem get_company_summary_default (w : World) (ticker : str)
    (info : gmap string str) :
  yf_info w ticker = Ok info ->
  info !! "longBusinessSummary"%string = None ->
  outcome (get_company_summary w ticker) = Ok (lit "No summary available.")
  /\ forall (company_name : option str) (news_articles : list str),
       outcome (get_yahoo_finance_news w ticker) = Ok news_articles ->
       exists rest : list str,
         outcome (build_rag_corpus w ticker company_name)
         = Ok (lit "No summary available." :: rest).
Proof.
  intros Hinfo Hkey.
  assert (Hs : outcome (get_company_summary w ticker)
               = Ok (lit "No summary available.")).
  { by rewrite outcome_get_company_summary, Hinfo; simpl; rewrite Hkey. }
  split; [done|]. intros company_name news_articles Hn.
  destruct (comprehension_chunk_text default_chunk_size news_articles eq_refl)
    as (nc & Hnc & _).
  exists (concat nc).
  by rewrite (build_rag_corpus_fetched w ticker company_name _ news_articles
                [lit "No summary available."] nc Hs Hn eq_refl Hnc).
Qed.

Lemma get_company_summary_default_witness :
  outcome (get_company_summary world_no_summary (lit "TSLA"))
    = Ok (lit "No summary available.")
  /\ forall (company_name : option str) (news_articles : list str),
       outcome (get_yahoo_finance_news world_no_summary (lit "TSLA"))
         = Ok news_articles ->
       exists rest : list str,
         outcome (build_rag_corpus world_no_summary (lit "TSLA") company_name)
         = Ok (lit "No summary available." :: rest).
Proof.
  apply (get_company_summary_default world_no_summary (lit "TSLA") ∅);
    reflexivity.
Defined.

(** X8.  When every entry of the feed has a title and a summary, the news items
    are the entries in feed order, one item per entry, each the title, a
    full stop and a space, and the summary. *)
Theorem get_yahoo_finance_news_texts (w : World) (ticker : str)
    (entries : list (gmap string str)) :
  feed_entries w (news_url ticker) = Ok entries ->
  (forall entry, entry ∈ entries ->
     is_Some (entry !! "title"%string) /\ is_Some (entry !! "summary"%string)) ->
  exists items : list str,
    outcome (get_yahoo_finance_news w ticker) = Ok items
    /\ Forall2 (fun entry item =>
                  exists title summary,
                    entry !! "title"%string = Some title
                    /\ entry !! "summary"%string = Some summary
                    /\ item = title ++ lit ". " ++ summary)
               entries items.
Proof.
  intros Hfeed Hkeys. rewrite outcome_get_yahoo_finance_news, Hfeed. simpl.
  assert (Hall : exists items,
    Forall2 (fun entry text =>
               res_bind (item entry "title") (fun title =>
               res_bind (item entry "summary") (fun summary =>
               Ok (title ++ lit ". " ++ summary))) = Ok text) entries items).
  { clear Hfeed. induction entries as [|entry entries IH].
    - exists []. constructor.
    - destruct IH as [items Hitems].
      { intros e He. apply Hkeys. by right. }
      destruct (Hkeys entry) as [[t Ht] [s Hs]]; [by left|].
      exists ((t ++ lit ". " ++ s) :: items). constructor; [|done].
      apply news_text_Ok. by exists t, s. }
  destruct Hall as [items Hitems]. exists items. split.
  - by apply comprehension_Ok.
  - eapply Forall2_impl; [exact Hitems|]. intros entry text Htext.
    by apply news_text_Ok.
Qed.

Lemma get_yahoo_finance_news_texts_witness :
  exists items : list str,
    outcome (get_yahoo_finance_news world_demo (lit "TSLA")) = Ok items
    /\ Forall2 (fun entry item =>
                  exists title summary,
                    entry !! "title"%string = Some title
                    /\ entry !! "summary"%string = Some summary
                    /\ item = title ++ lit ". " ++ summary)
               [news_entry (lit "C") (lit "D")] items.
Proof.
  apply (get_yahoo_finance_news_texts world_demo (lit "TSLA")
           [news_entry (lit "C") (lit "D")]); [reflexivity|].
  intros entry Hin. apply list_elem_of_singleton in Hin as ->.
  split; eexists; reflexivity.
Defined.

(** X9.  One entry without a title or without a summary loses the whole feed:
    the news fetcher raises [KeyError], and so does the corpus builder once
    it has the summary. *)
Theorem get_yahoo_finance_news_missing_key (w : World) (ticker : str)
    (entries : list (gmap string str)) (entry : gmap string str) :
  feed_entries w (news_url ticker) = Ok entries ->
  entry ∈ entries ->
  entry !! "title"%string = None \/ entry !! "summary"%string = None ->
  outcome (get_yahoo_finance_news w ticker) = Raise KeyError
  /\ forall (company_name : option str) (summary : str),
       outcome (get_company_summary w ticker) = Ok summary ->
       outcome (build_rag_corpus w ticker company_name) = Raise KeyError.
Proof.
  intros Hfeed Hin Hmissing.
  assert (Hn : outcome (get_yahoo_finance_news w ticker) = Raise KeyError).
  { rewrite outcome_get_yahoo_finance_news, Hfeed. simpl.
    apply (comprehension_Raise _ entries entry KeyError KeyError);
      [apply news_text_Raise|done|].
    unfold item. destruct Hmissing as [-> | Hs]; [done|].
    rewrite Hs. by destruct (entry !! "title"%string). }
  split; [done|]. intros company_name summary Hs. unfold build_rag_corpus.
  rewrite (outcome_bind_Ok _ _ summary Hs).
  rewrite (chunk_text_windows summary default_chunk_size) by done. run_steps.
  by rewrite (outcome_bind_Raise _ _ KeyError Hn).
Qed.

Lemma get_yahoo_finance_news_missing_key_witness :
  outcome (get_yahoo_finance_news world_bad_entry (lit "TSLA")) = Raise KeyError
  /\ forall (company_name : option str) (summary : str),
       outcome (get_company_summary world_bad_entry (lit "TSLA")) = Ok summary ->
       outcome (build_rag_corpus world_bad_entry (lit "TSLA") company_name)
       = Raise KeyError.
Proof.
  apply (get_yahoo_finance_news_missing_key world_bad_entry (lit "TSLA")
           [news_entry (lit "C") (lit "D"); {[ "title"%string := lit "E" ]}]
           {[ "title"%string := lit "E" ]}).
  - reflexivity.
  - right. left.
  - right. reflexivity.
Defined.

Lemma chunk_text_empty_inv (text : str) (c : Z) :
  0 < c -> chunk_text text c = Ok [] -> text = [].
Proof.
  intros Hc. rewrite chunk_text_windows by done. intros [= Hmap].
  apply (f_equal length) in Hmap. rewrite length_map, length_seq in Hmap.
  pose proof (chunk_count_cover text c Hc) as Hcover.
  rewrite Hmap in Hcover. unfold len in Hcover.
  destruct text; [done|simpl in Hcover; lia].
Qed.

Lemma chunks_nonempty (c : Z) (articles : list str) (ncs : list (list str)) :
  0 < c ->
  Forall (fun article => article <> []) articles ->
  Forall2 (fun article cs => chunk_text article c = Ok cs) articles ncs ->
  Forall (fun cs => cs <> []) ncs.
Proof.
  intros Hc Hne Hall. induction Hall as [|a cs arts ncs Ha _ IH]; constructor.
  - inversion Hne; subst. intros ->. by apply chunk_text_empty_inv in Ha.
  - apply IH. by inversion Hne.
Qed.

Lemma concat_length_nonempty {A} (ls : list (list A)) :
  Forall (fun l => l <> []) ls -> (length ls <= length (concat ls))%nat.
Proof.
  induction 1 as [|l ls Hl _ IH]; simpl; [lia|].
  rewrite length_app. destruct l; [done|simpl; lia].
Qed.

(** X10.  With both fetches answered the corpus has at least one fragment per
    news item, and it is empty exactly when the summary is the empty string
    and the feed has no entry. *)
Theorem build_rag_corpus_size (w : World) (ticker : str)
    (company_name : option str) (summary : str) (news_articles : list str) :
  outcome (get_company_summary w ticker) = Ok summary ->
  outcome (get_yahoo_finance_news w ticker) = Ok news_articles ->
  exists corpus : list str,
    outcome (build_rag_corpus w ticker company_name) = Ok corpus
    /\ (length news_articles <= length corpus)%nat
    /\ (corpus = [] <-> summary = [] /\ news_articles = []).
Proof.
  intros Hs Hn.
  assert (Hpos : 0 < default_chunk_size) by done.
  destruct (comprehension_chunk_text default_chunk_size news_articles Hpos)
    as (nc & Hnc & Hall).
  pose proof (chunk_text_windows summary default_chunk_size Hpos) as Hsc.
  set (sc := map _ _) in Hsc.
  exists (sc ++ concat nc).
  rewrite (build_rag_corpus_fetched w ticker company_name summary news_articles
             sc nc Hs Hn Hsc Hnc).
  assert (Hne : Forall (fun l : list str => l <> []) nc).
  { apply (chunks_nonempty default_chunk_size news_articles); [done| |done].
    by apply (news_items_nonempty w ticker). }
  pose proof (concat_length_nonempty nc Hne) as Hlen.
  pose proof (Forall2_length _ _ _ Hall) as Hsame.
  split; [done|]. split; [rewrite length_app; unfold str in *; lia|]. split.
  - intros Hnil. apply app_eq_nil in Hnil as [Hsc0 Hnc0]. split.
    + apply (chunk_text_empty_inv summary default_chunk_size Hpos).
      by rewrite Hsc, Hsc0.
    + rewrite Hnc0 in Hlen. simpl in Hlen.
      destruct news_articles; [done|simpl in Hsame; lia].
  - intros [-> ->]. inversion Hall; subst. reflexivity.
Qed.

Lemma build_rag_corpus_size_witness :
  exists corpus : list str,
    outcome (build_rag_corpus world_demo (lit "TSLA") (Some (lit "tesla")))
      = Ok corpus
    /\ (length [lit "C. D"] <= length corpus)%nat
    /\ (corpus = [] <-> lit "AB" = [] /\ [lit "C. D"] = []).
Proof.
  apply (build_rag_corpus_size world_demo (lit "TSLA") (Some (lit "tesla"))
           (lit "AB") [lit "C. D"]); reflexivity.
Defined.

(** ** More on the pipeline *)

(** [x[i]] succeeds exactly on the positions from [-len(x)] to
    [len(x) - 1], and then reads the element at [i mod len(x)]. *)
Lemma getitem_Ok {A} (l : list A) (i : Z) (a : A) :
  getitem l i = Ok a
  <-> - len l <= i < len l /\ l !! Z.to_nat (i mod len l) = Some a.
Proof.
  unfold getitem. pose proof (len_nonneg l) as Hn.
  destruct (Z.ltb_spec i 0) as [Hneg|Hpos].
  - destruct (Z.ltb_spec (i + len l) 0) as [Hlow|Hin].
    + split; [done|]. intros [? _]. lia.
    + replace (i mod len l) with (i + len l).
      2:{ apply (Z.mod_unique_pos _ _ (-1)); lia. }
      destruct (l !! Z.to_nat (i + len l)) as [b|] eqn:Hb.
      * split; [intros [= <-]; split; [lia|done]|intros [_ [= <-]]; done].
      * split; [done|]. by intros [_ ?].
  - destruct (Z.ltb_spec i 0) as [?|_]; [lia|].
    destruct (l !! Z.to_nat i) as [b|] eqn:Hb.
    + apply lookup_lt_Some in Hb as Hlt. unfold len in *.
      rewrite Z.mod_small by lia. rewrite Hb.
      split; [intros [= <-]; split; [lia|done]|intros [_ [= <-]]; done].
    + apply lookup_ge_None in Hb. unfold len.
      split; [done|]. intros [? _]. lia.
Qed.

Lemma getitem_Raise {A} (l : list A) (i : Z) (e : exn) :
  getitem l i = Raise e -> e = IndexError.
Proof.
  unfold getitem. destruct (_ <? 0); [congruence|].
  destruct (l !! _); congruence.
Qed.

Lemma retrieve_context_row (w : World) (corpus : list str) (ix : index)
    (q : str) (q_embed : list embedding) (D : list (list float32))
    (I_ : list (list Z)) (I0 : list Z) :
  encode w [q] = Ok q_embed ->
  index_search w ix q_embed 3 = Ok (D, I_) ->
  getitem I_ 0 = Ok I0 ->
  retrieve_context w corpus ix q =
  ([CallEncode [q]; CallIndexSearch ix q_embed 3],
   res_bind (comprehension (fun i => getitem corpus i) I0)
            (fun texts => Ok (join nl texts))).
Proof.
  intros Hq Hs HI. unfold retrieve_context.
  apply M_eq; rewrite Hq; run_steps; rewrite Hs; run_steps;
    rewrite HI; run_steps;
    by destruct (comprehension (fun i => getitem corpus i) I0); run_steps.
Qed.

(** X11.  The positions of the search row are read with Python's indexing: when
    each lies between [-len(corpus)] and [len(corpus) - 1] the context is
    the texts at the positions taken modulo [len(corpus)], so that [-1] is
    the last fragment; they are joined by line feeds in the order of the
    row. *)
Theorem retrieve_context_wraps (w : World) (corpus : list str) (ix : index)
    (q : str) (q_embed : list embedding) (D : list (list float32))
    (I_ : list (list Z)) (I0 : list Z) :
  encode w [q] = Ok q_embed ->
  index_search w ix q_embed 3 = Ok (D, I_) ->
  getitem I_ 0 = Ok I0 ->
  Forall (fun i => - len corpus <= i < len corpus) I0 ->
  exists texts : list str,
    outcome (retrieve_context w corpus ix q) = Ok (join nl texts)
    /\ Forall2 (fun i text => corpus !! Z.to_nat (i mod len corpus) = Some text)
               I0 texts.
Proof.
  intros Hq Hs HI Hrange.
  rewrite (retrieve_context_row w corpus ix q q_embed D I_ I0 Hq Hs HI).
  assert (Hall : exists texts,
    Forall2 (fun i text => getitem corpus i = Ok text) I0 texts).
  { clear HI. induction Hrange as [|i row Hi _ [texts IH]]; [by exists []|].
    assert (Hlt : (Z.to_nat (i mod len corpus) < length corpus)%nat).
    { pose proof (Z.mod_pos_bound i (len corpus) ltac:(lia)).
      unfold len in *. lia. }
    apply lookup_lt_is_Some in Hlt as [text Htext].
    exists (text :: texts). constructor; [|done]. by apply getitem_Ok. }
  destruct Hall as [texts Hall]. exists texts. split.
  - apply comprehension_Ok in Hall. simpl.
    change (comprehension (fun i => getitem corpus i) I0)
      with (comprehension (getitem corpus) I0).
    by rewrite Hall.
  - eapply Forall2_impl; [exact Hall|]. intros i text Hi.
    by apply getitem_Ok in Hi as [_ ?].
Qed.

Lemma retrieve_context_wraps_witness :
  exists texts : list str,
    outcome (retrieve_context world_demo [lit "AB"; lit "C. D"]
               (Index 2 [[[2; 1]; [4; 1]]]) (lit "How is Tesla doing?"))
    = Ok (join nl texts)
    /\ Forall2 (fun i text =>
                  [lit "AB"; lit "C. D"]
                    !! Z.to_nat (i mod len [lit "AB"; lit "C. D"]) = Some text)
               [1; 0; -1] texts.
Proof.
  apply (retrieve_context_wraps world_demo [lit "AB"; lit "C. D"]
           (Index 2 [[[2; 1]; [4; 1]]]) (lit "How is Tesla doing?")
           [[19; 1]] [[0; 1; 2]] [[1; 0; -1]] [1; 0; -1]);
    [reflexivity..|].
  repeat constructor; (lia || (vm_compute; discriminate)).
Defined.

Lemma bind_Ok_inv {A B} (m : M A) (k : A -> M B) (b : B) :
  outcome (m ≫= k) = Ok b ->
  exists a : A,
    outcome m = Ok a /\ outcome (k a) = Ok b
    /\ calls (m ≫= k) = calls m ++ calls (k a).
Proof.
  destruct (outcome m) as [a|e] eqn:Hm.
  - rewrite (outcome_bind_Ok m k a Hm), (calls_bind_Ok m k a Hm). by exists a.
  - by rewrite (outcome_bind_Raise m k e Hm).
Qed.

Lemma get_ticker_cases (question : str) :
  get_ticker_from_question question = (None, None)
  \/ exists ticker name : str,
       get_ticker_from_question question = (Some ticker, Some name)
       /\ ticker <> [].
Proof.
  unfold get_ticker_from_question.
  destruct (first_match_cases company_ticker_map
              (dict_keys company_ticker_map) (lower question))
    as [[_ Hnone] | (i & name & Hi & _ & _ & Hres)]; [by left|right].
  apply dict_keys_lookup in Hi as [ticker Hi].
  destruct (company_ticker_map_entry i name ticker Hi) as (Hget & _ & Hne).
  exists ticker, name. by rewrite Hres, Hget.
Qed.

Lemma calls_build_rag_corpus_Ok (w : World) (ticker : str)
    (company_name : option str) (corpus : list str) :
  outcome (build_rag_corpus w ticker company_name) = Ok corpus ->
  calls (build_rag_corpus w ticker company_name)
  = [CallTickerInfo ticker; CallFeedParse (news_url ticker)].
Proof.
  unfold build_rag_corpus. intros H.
  apply bind_Ok_inv in H as (summary & _ & H & ->).
  rewrite calls_get_company_summary.
  apply bind_Ok_inv in H as (sc & _ & H & ->).
  apply bind_Ok_inv in H as (news & _ & H & ->).
  rewrite calls_get_yahoo_finance_news.
  apply bind_Ok_inv in H as (nc & _ & _ & ->). reflexivity.
Qed.

Section Retrieved.

Variables (w : World) (question ticker : str) (company_name : option str).
Variables (corpus : list str) (embeddings : list embedding) (e0 : embedding).
Variables (q_embed : list embedding) (D : list (list float32)).
Variables (I_ : list (list Z)) (I0 : list Z).

Hypothesis Hsubject :
  get_ticker_from_question question = (Some ticker, company_name).
Hypothesis Hcorpus :
  outcome (build_rag_corpus w ticker company_name) = Ok corpus.
Hypothesis Hmodel : load_model w model_name = Ok ().
Hypothesis Hencode : encode w corpus = Ok embeddings.
Hypothesis Hfirst : getitem embeddings 0 = Ok e0.
Hypothesis Hadd : index_add w (Index (len e0) []) embeddings = Ok ().
Hypothesis Hquery : encode w [question] = Ok q_embed.
Hypothesis Hsearch :
  index_search w (Index (len e0) [embeddings]) q_embed 3 = Ok (D, I_).
Hypothesis Hrow : getitem I_ 0 = Ok I0.

(** The run up to the search, and what is left to do after it. *)
Lemma run_rag_after_search :
  calls (run_rag_with_news w question)
  = [CallTickerInfo ticker; CallFeedParse (news_url ticker);
     CallLoadModel model_name; CallEncode corpus;
     CallIndexAdd (Index (len e0) []) embeddings;
     CallEncode [question];
     CallIndexSearch (Index (len e0) [embeddings]) q_embed 3]
    ++ match comprehension (fun i => getitem corpus i) I0 with
       | Ok texts =>
           [CallChat (make_request (make_prompt (join nl texts) question))]
       | Raise _ => []
       end
  /\ outcome (run_rag_with_news w question)
     = res_bind (comprehension (fun i => getitem corpus i) I0) (fun texts =>
       res_bind (chat w (make_request (make_prompt (join nl texts) question)))
                (fun response => getitem response 0)).
Proof.
  assert (Hne : ticker <> []).
  { destruct (get_ticker_cases question) as [Hn | (t & n & Ht & Hne)];
      congruence. }
  rewrite (run_rag_with_subject w question ticker company_name Hsubject Hne).
  split.
  - rewrite (calls_bind_Ok _ _ corpus Hcorpus).
    rewrite (calls_build_rag_corpus_Ok w ticker company_name corpus Hcorpus).
    rewrite Hmodel; run_steps. rewrite Hencode; run_steps.
    rewrite Hfirst; run_steps. rewrite Hadd; run_steps.
    change (Index (index_d (Index (len e0) []))
                  (index_added (Index (len e0) []) ++ [embeddings]))
      with (Index (len e0) [embeddings]).
    rewrite (retrieve_context_row w corpus _ question q_embed D I_ I0
               Hquery Hsearch Hrow).
    destruct (comprehension (fun i => getitem corpus i) I0) as [texts|e];
      cbn [res_bind]; [|done].
    rewrite (calls_bind_Ok (_, Ok _) _ (join nl texts) eq_refl).
    cbv zeta. by rewrite calls_generation.
  - rewrite (outcome_bind_Ok _ _ corpus Hcorpus).
    rewrite Hmodel; run_steps. rewrite Hencode; run_steps.
    rewrite Hfirst; run_steps. rewrite Hadd; run_steps.
    change (Index (index_d (Index (len e0) []))
                  (index_added (Index (len e0) []) ++ [embeddings]))
      with (Index (len e0) [embeddings]).
    rewrite (retrieve_context_row w corpus _ question q_embed D I_ I0
               Hquery Hsearch Hrow).
    destruct (comprehension (fun i => getitem corpus i) I0) as [texts|e];
      cbn [res_bind]; [|done].
    rewrite (outcome_bind_Ok (_, Ok _) _ (join nl texts) eq_refl). cbv zeta.
    destruct (chat w _) as [response|e]; run_steps; [|done].
    cbn [res_bind]. by destruct (getitem response 0); run_steps.
Qed.

(** X12.  When every step up to the retrieval succeeds, the run makes eight calls
    in this order: the company record, the news feed, the model load, the
    encoding of the corpus, the index fill, the encoding of the question,
    the search for 3 neighbours, the chat request.  Its outcome is the
    first choice of the chat response; it is the chat's own exception when
    the chat call fails and [IndexError] when the response has no choice. *)
Theorem run_rag_answer (texts : list str) :
  comprehension (fun i => getitem corpus i) I0 = Ok texts ->
  let request := make_request (make_prompt (join nl texts) question) in
  calls (run_rag_with_news w question)
  = [CallTickerInfo ticker; CallFeedParse (news_url ticker);
     CallLoadModel model_name; CallEncode corpus;
     CallIndexAdd (Index (len e0) []) embeddings;
     CallEncode [question];
     CallIndexSearch (Index (len e0) [embeddings]) q_embed 3;
     CallChat request]
  /\ outcome (run_rag_with_news w question)
     = res_bind (chat w request) (fun response => getitem response 0).
Proof.
  intros Htexts request. destruct run_rag_after_search as [-> ->].
  by rewrite Htexts.
Qed.

(** X13.  When the search returns a position below [-len(corpus)] or from
    [len(corpus)] on, the run fails with [IndexError] and the chat model is
    never called. *)
Theorem run_rag_position_out_of_range :
  Exists (fun i => i < - len corpus \/ len corpus <= i) I0 ->
  outcome (run_rag_with_news w question) = Raise IndexError
  /\ calls (run_rag_with_news w question)
     = [CallTickerInfo ticker; CallFeedParse (news_url ticker);
        CallLoadModel model_name; CallEncode corpus;
        CallIndexAdd (Index (len e0) []) embeddings;
        CallEncode [question];
        CallIndexSearch (Index (len e0) [embeddings]) q_embed 3].
Proof.
  intros Hout. destruct run_rag_after_search as [-> ->].
  apply Exists_exists in Hout as (i & Hin & Hi).
  assert (Hraise : comprehension (fun i => getitem corpus i) I0
                   = Raise IndexError).
  { destruct (getitem corpus i) as [text|e] eqn:Hget.
    - apply getitem_Ok in Hget as [? _]. lia.
    - apply (comprehension_Raise _ I0 i e IndexError); [|done..].
      intros i' e'. apply getitem_Raise. }
  by rewrite Hraise.
Qed.

End Retrieved.

Lemma run_rag_answer_witness :
  let request :=
    make_request (make_prompt (join nl [lit "C. D"; lit "AB"; lit "C. D"])
                              (lit "How is Tesla doing?")) in
  calls (run_rag_with_news world_demo (lit "How is Tesla doing?"))
  = [CallTickerInfo (lit "TSLA"); CallFeedParse (news_url (lit "TSLA"));
     CallLoadModel model_name; CallEncode [lit "AB"; lit "C. D"];
     CallIndexAdd (Index (len [2; 1]) []) [[2; 1]; [4; 1]];
     CallEncode [lit "How is Tesla doing?"];
     CallIndexSearch (Index (len [2; 1]) [[[2; 1]; [4; 1]]]) [[19; 1]] 3;
     CallChat request]
  /\ outcome (run_rag_with_news world_demo (lit "How is Tesla doing?"))
     = res_bind (chat world_demo request) (fun response => getitem response 0).
Proof.
  apply (run_rag_answer world_demo (lit "How is Tesla doing?") (lit "TSLA")
           (Some (lit "tesla")) [lit "AB"; lit "C. D"]
           [[2; 1]; [4; 1]] [2; 1] [[19; 1]] [[0; 1; 2]] [[1; 0; -1]]
           [1; 0; -1]); reflexivity.
Defined.

Lemma run_rag_position_out_of_range_witness :
  outcome (run_rag_with_news world_far_position (lit "How is Tesla doing?"))
    = Raise IndexError
  /\ calls (run_rag_with_news world_far_position (lit "How is Tesla doing?"))
     = [CallTickerInfo (lit "TSLA"); CallFeedParse (news_url (lit "TSLA"));
        CallLoadModel model_name; CallEncode [lit "AB"; lit "C. D"];
        CallIndexAdd (Index (len [2; 1]) []) [[2; 1]; [4; 1]];
        CallEncode [lit "How is Tesla doing?"];
        CallIndexSearch (Index (len [2; 1]) [[[2; 1]; [4; 1]]]) [[19; 1]] 3].
Proof.
  apply (run_rag_position_out_of_range world_far_position
           (lit "How is Tesla doing?") (lit "TSLA")
           (Some (lit "tesla")) [lit "AB"; lit "C. D"]
           [[2; 1]; [4; 1]] [2; 1] [[19; 1]] [[0; 1; 2]] [[0; 7; 1]]
           [0; 7; 1]); try reflexivity.
  right. left. right. vm_compute. discriminate.
Defined.

(** X14.  A run that returns normally either found no company, made no call and
    returns the apology, or ends with a chat call and returns the first
    choice of its response: no answer is produced in any other way. *)
Theorem run_rag_return (w : World) (question answer : str) :
  outcome (run_rag_with_news w question) = Ok answer ->
  (get_ticker_from_question question = (None, None)
   /\ answer = sorry_message
   /\ calls (run_rag_with_news w question) = [])
  \/ exists (prompt : str) (response : list str),
       last (calls (run_rag_with_news w question))
       = Some (CallChat (make_request prompt))
       /\ chat w (make_request prompt) = Ok response
       /\ getitem response 0 = Ok answer.
Proof.
  intros H.
  destruct (get_ticker_cases question) as [Hnone | (ticker & name & Ht & Hne)].
  - left. unfold run_rag_with_news in *. rewrite Hnone in *.
    split; [done|]. split; [|done]. by injection H.
  - right. revert H.
    rewrite (run_rag_with_subject w question ticker (Some name) Ht Hne).
    intros H.
    apply bind_Ok_inv in H as (corpus & _ & H & ->).
    apply bind_Ok_inv in H as (u & _ & H & ->).
    apply bind_Ok_inv in H as (embeddings & _ & H & ->).
    apply bind_Ok_inv in H as (e0 & _ & H & ->). cbv zeta in *.
    apply bind_Ok_inv in H as (u' & _ & H & ->).
    apply bind_Ok_inv in H as (context & _ & H & ->). cbv zeta in *.
    apply bind_Ok_inv in H as (response & Hchat & H & ->).
    apply bind_Ok_inv in H as (a & Hget & Ha & ->).
    exists (make_prompt context question), response.
    simpl in Hchat, Hget, Ha. injection Ha as ->.
    split; [|done].
    change (calls (lift (getitem response 0))) with (@nil call).
    change (calls (mret answer)) with (@nil call).
    change (calls (ask (CallChat (make_request (make_prompt context question)))
                       (chat w (make_request (make_prompt context question)))))
      with [CallChat (make_request (make_prompt context question))].
    rewrite !app_nil_r, !app_assoc. apply last_snoc.
Qed.

Lemma run_rag_return_witness :
  (get_ticker_from_question (lit "How is Tesla doing?") = (None, None)
   /\ lit "An answer." = sorry_message
   /\ calls (run_rag_with_news world_demo (lit "How is Tesla doing?")) = [])
  \/ exists (prompt : str) (response : list str),
       last (calls (run_rag_with_news world_demo (lit "How is Tesla doing?")))
       = Some (CallChat (make_request prompt))
       /\ chat world_demo (make_request prompt) = Ok response
       /\ getitem response 0 = Ok (lit "An answer.").
Proof.
  apply (run_rag_return world_demo (lit "How is Tesla doing?")
           (lit "An answer.")).
  reflexivity.
Defined.

(** X15.  The outside world is contacted exactly when a company is found, and the
    first call is then the yfinance record of the ticker found. *)
Theorem run_rag_first_call (w : World) (question : str) :
  (get_ticker_from_question question = (None, None)
   /\ calls (run_rag_with_news w question) = [])
  \/ exists (ticker name : str) (rest : list call),
       get_ticker_from_question question = (Some ticker, Some name)
       /\ calls (run_rag_with_news w question) = CallTickerInfo ticker :: rest.
Proof.
  destruct (get_ticker_cases question) as [Hnone | (ticker & name & Ht & Hne)].
  - left. split; [done|]. unfold run_rag_with_news. by rewrite Hnone.
  - right. exists ticker, name.
    rewrite (run_rag_with_subject w question ticker (Some name) Ht Hne).
    destruct (outcome (build_rag_corpus w ticker (Some name))) as [c|e] eqn:Hb.
    + rewrite (calls_bind_Ok _ _ c Hb).
      destruct (calls_build_rag_corpus w ticker (Some name)) as [-> | ->];
        eexists; split; done.
    + rewrite (calls_bind_Raise _ _ e Hb).
      destruct (calls_build_rag_corpus w ticker (Some name)) as [-> | ->];
        eexists; split; done.
Qed.

Lemma getitem_position {A} (l : list A) (p : nat) (a : A) :
  l !! p = Some a -> getitem l (Z.of_nat p) = Ok a.
Proof.
  intros Hp. apply getitem_Ok. apply lookup_lt_Some in Hp as Hlt.
  unfold len. rewrite Z.mod_small by lia. rewrite Nat2Z.id. split; [lia|done].
Qed.

(** X16.  With a corpus of at least three fragments, an embedder that
    gives one vector per text and an index that answers as
    [faiss_index_search], the one prompt sent to the chat model is the line
    [Context:], then the texts of three fragments, one per line, an empty
    line, and [Question: ] followed by the question unchanged.  The three
    fragments are at three positions of the corpus; their embeddings are
    in ascending order of squared distance to the embedding of the
    question, ties in ascending order of position; and the embedding of
    every other fragment is at least as far as the third. *)
Theorem run_rag_prompt_nearest (w : World) (question ticker : str)
    (company_name : option str) (corpus : list str)
    (embeddings : list embedding) (e0 qv : embedding) :
  get_ticker_from_question question = (Some ticker, company_name) ->
  outcome (build_rag_corpus w ticker company_name) = Ok corpus ->
  (3 <= length corpus)%nat ->
  load_model w model_name = Ok () ->
  encode w corpus = Ok embeddings ->
  length embeddings = length corpus ->
  getitem embeddings 0 = Ok e0 ->
  index_add w (Index (len e0) []) embeddings = Ok () ->
  encode w [question] = Ok [qv] ->
  index_search w (Index (len e0) [embeddings]) [qv] 3
    = faiss_index_search (Index (len e0) [embeddings]) [qv] 3 ->
  exists (p1 p2 p3 : nat) (t1 t2 t3 : str) (v1 v2 v3 : embedding),
    (corpus !! p1 = Some t1 /\ embeddings !! p1 = Some v1)
    /\ (corpus !! p2 = Some t2 /\ embeddings !! p2 = Some v2)
    /\ (corpus !! p3 = Some t3 /\ embeddings !! p3 = Some v3)
    /\ (l2sqr v1 qv < l2sqr v2 qv
        \/ (l2sqr v1 qv = l2sqr v2 qv /\ (p1 < p2)%nat))
    /\ (l2sqr v2 qv < l2sqr v3 qv
        \/ (l2sqr v2 qv = l2sqr v3 qv /\ (p2 < p3)%nat))
    /\ (forall (p : nat) (v : embedding),
          embeddings !! p = Some v -> p <> p1 -> p <> p2 -> p <> p3 ->
          l2sqr v3 qv <= l2sqr v qv)
    /\ chat_prompts (calls (run_rag_with_news w question))
       = [lit "Context:" ++ nl ++ t1 ++ nl ++ t2 ++ nl ++ t3 ++ nl ++ nl
          ++ lit "Question: " ++ question].
Proof.
  intros Hsubject Hcorpus Hthree Hmodel Hencode Hsame Hfirst Hadd Hquery Hsearch.
  pose proof (length_nearest embeddings qv 3) as Hlen.
  rewrite Nat.min_l in Hlen by lia.
  destruct (nearest embeddings qv 3) as [|[p1 d1] [|[p2 d2] [|[p3 d3] [|? ?]]]]
    eqn:Hfound; try discriminate Hlen. clear Hlen.
  assert (Hj : forall (j p : nat) (d : Z),
    [(p1, d1); (p2, d2); (p3, d3)] !! j = Some (p, d) ->
    exists (v : embedding) (t : str),
      embeddings !! p = Some v /\ d = l2sqr v qv /\ corpus !! p = Some t).
  { intros j p d Hjd. rewrite <- Hfound in Hjd.
    destruct (nearest_stored embeddings qv 3 j p d Hjd) as (v & Hv & ->).
    apply lookup_lt_Some in Hv as Hlt. rewrite Hsame in Hlt.
    apply lookup_lt_is_Some_2 in Hlt as [t Ht]. by exists v, t. }
  destruct (Hj 0%nat p1 d1 eq_refl) as (v1 & t1 & Hv1 & -> & Ht1).
  destruct (Hj 1%nat p2 d2 eq_refl) as (v2 & t2 & Hv2 & -> & Ht2).
  destruct (Hj 2%nat p3 d3 eq_refl) as (v3 & t3 & Hv3 & -> & Ht3).
  exists p1, p2, p3, t1, t2, t3, v1, v2, v3.
  split; [done|]. split; [done|]. split; [done|].
  split.
  { change (before (p1, l2sqr v1 qv) (p2, l2sqr v2 qv)).
    apply (nearest_ordered embeddings qv 3 0 1); [lia|by rewrite Hfound..]. }
  split.
  { change (before (p2, l2sqr v2 qv) (p3, l2sqr v3 qv)).
    apply (nearest_ordered embeddings qv 3 1 2); [lia|by rewrite Hfound..]. }
  split.
  { intros p v Hv Hn1 Hn2 Hn3.
    destruct (nearest_complete embeddings qv 3 p v Hv) as [[j Hjp] | Hfar].
    - rewrite Hfound in Hjp.
      destruct j as [|[|[|j]]]; by simplify_eq/=.
    - apply (Hfar 2%nat (p3, l2sqr v3 qv)). by rewrite Hfound. }
  assert (Hrows : index_search w (Index (len e0) [embeddings]) [qv] 3
    = Ok ([[l2sqr v1 qv; l2sqr v2 qv; l2sqr v3 qv]],
          [[Z.of_nat p1; Z.of_nat p2; Z.of_nat p3]])).
  { rewrite Hsearch. unfold faiss_index_search, faiss_search. simpl.
    change (Z.to_nat 3) with 3%nat. by rewrite app_nil_r, Hfound. }
  assert (Htexts : comprehension (fun i => getitem corpus i)
                     [Z.of_nat p1; Z.of_nat p2; Z.of_nat p3]
                   = Ok [t1; t2; t3]).
  { cbn [comprehension].
    by rewrite (getitem_position corpus p1 t1 Ht1),
               (getitem_position corpus p2 t2 Ht2),
               (getitem_position corpus p3 t3 Ht3). }
  destruct (run_rag_after_search w question ticker company_name corpus
              embeddings e0 [qv] _ _ _ Hsubject Hcorpus Hmodel Hencode Hfirst
              Hadd Hquery Hrows eq_refl) as [-> _].
  rewrite Htexts.
  transitivity [make_prompt (join nl [t1; t2; t3]) question]; [reflexivity|].
  unfold make_prompt. cbn [join]. by rewrite <- !app_assoc.
Qed.

Lemma run_rag_prompt_nearest_witness :
  exists (p1 p2 p3 : nat) (t1 t2 t3 : str) (v1 v2 v3 : embedding),
    ([lit "AB"; lit "C. D"; lit "EF. G"] !! p1 = Some t1
     /\ [[2; 1]; [4; 1]; [5; 1]] !! p1 = Some v1)
    /\ ([lit "AB"; lit "C. D"; lit "EF. G"] !! p2 = Some t2
        /\ [[2; 1]; [4; 1]; [5; 1]] !! p2 = Some v2)
    /\ ([lit "AB"; lit "C. D"; lit "EF. G"] !! p3 = Some t3
        /\ [[2; 1]; [4; 1]; [5; 1]] !! p3 = Some v3)
    /\ (l2sqr v1 [19; 1] < l2sqr v2 [19; 1]
        \/ (l2sqr v1 [19; 1] = l2sqr v2 [19; 1] /\ (p1 < p2)%nat))
    /\ (l2sqr v2 [19; 1] < l2sqr v3 [19; 1]
        \/ (l2sqr v2 [19; 1] = l2sqr v3 [19; 1] /\ (p2 < p3)%nat))
    /\ (forall (p : nat) (v : embedding),
          [[2; 1]; [4; 1]; [5; 1]] !! p = Some v ->
          p <> p1 -> p <> p2 -> p <> p3 ->
          l2sqr v3 [19; 1] <= l2sqr v [19; 1])
    /\ chat_prompts
         (calls (run_rag_with_news world_faiss_three (lit "How is Tesla doing?")))
       = [lit "Context:" ++ nl ++ t1 ++ nl ++ t2 ++ nl ++ t3 ++ nl ++ nl
          ++ lit "Question: " ++ lit "How is Tesla doing?"].
Proof.
  apply (run_rag_prompt_nearest world_faiss_three (lit "How is Tesla doing?")
           (lit "TSLA") (Some (lit "tesla"))
           [lit "AB"; lit "C. D"; lit "EF. G"]
           [[2; 1]; [4; 1]; [5; 1]] [2; 1] [19; 1]);
    solve [reflexivity | simpl; lia].
Defined.
